(** * A toy library of books: shallow embedding of [Library.py]

    The Python module keeps a list of [LibraryBook] objects and a dict from
    [BookKey] to the very same objects.  Objects are mutable and shared, so
    the embedding has an explicit object store ([heap]) and both containers
    hold references into it.  Methods are written in a small state and
    exception monad; Python integers are [Z]. *)

From Stdlib Require Import ZArith.
From stdpp Require Import gmap strings list fin_maps.

Set Default Proof Using "Type".

(** ** Exceptions and the method monad *)

(** [KeyError] and [StopIteration] are the two exceptions the module can
    raise.  [Unallocated] is what the embedding answers when a reference
    that no [LibraryBook(...)] call returned is dereferenced; no run of the
    Python program does that (see [consistent_run]). *)
Inductive exn : Type :=
  | KeyError
  | StopIteration
  | Unallocated.

Inductive outcome (A : Type) : Type :=
  | Ret (a : A)
  | Raise (e : exn).
Arguments Ret {A} a.
Arguments Raise {A} e.

(** A method body: it reads and writes a state [S] and either returns or
    raises.  A raise keeps the state reached so far, as in Python. *)
Definition M (S A : Type) : Type := S → outcome A * S.

Definition ret {S A} (a : A) : M S A := λ s, (Ret a, s).
Definition raise {S A} (e : exn) : M S A := λ s, (Raise e, s).
Definition bind {S A B} (c : M S A) (k : A → M S B) : M S B :=
  λ s, match c s with
       | (Ret a, s') => k a s'
       | (Raise e, s') => (Raise e, s')
       end.
Definition gets {S A} (f : S → A) : M S A := λ s, (Ret (f s), s).
Definition modify {S} (f : S → S) : M S unit := λ s, (Ret tt, f s).

Declare Scope py_scope.
Delimit Scope py_scope with py.
Notation "x <- c1 ;; c2" := (bind c1 (λ x, c2))
  (at level 100, c1 at next level, right associativity) : py_scope.
Notation "c1 ;; c2" := (bind c1 (λ _, c2))
  (at level 100, right associativity) : py_scope.
Local Open Scope py_scope.

(** ** class Book *)

Record Book : Type := mkBook {
  title : string;
  author : string;
  genere : string;
  n_pages : Z
}.

(** ** class BookKey

    [self.key = (title, author)]; [__eq__] and [__hash__] are those of the
    tuple, so a dict keyed by [BookKey] is a finite map on the pair. *)
Abbreviation BookKey := (string * string)%type.

Definition mkBookKey (t a : string) : BookKey := (t, a).
Definition from_book (b : Book) : BookKey := mkBookKey (title b) (author b).

(** ** class LibraryBook *)

Record LibraryBook : Type := mkLibraryBook {
  book : Book;
  qty : Z;
  available_qty : Z
}.

Definition with_qty (v : Z) (lb : LibraryBook) : LibraryBook :=
  mkLibraryBook (book lb) v (available_qty lb).
Definition with_available_qty (v : Z) (lb : LibraryBook) : LibraryBook :=
  mkLibraryBook (book lb) (qty lb) v.

(** ** class Library: the state *)

(** A reference to a [LibraryBook] object is its position in the store. *)
Abbreviation loc := nat.

Record Library : Type := mkLibrary {
  heap : list LibraryBook;
  library_books : list loc;
  index : gmap (string * string) loc
}.

Definition with_heap (h : list LibraryBook) (lib : Library) : Library :=
  mkLibrary h (library_books lib) (index lib).

(** [Library.__init__] *)
Definition Library_init : Library := mkLibrary [] [] ∅.

(** *** Object store and container primitives *)

(** [LibraryBook(book, qty, available_qty)]: a fresh object. *)
Definition new_LibraryBook (b : Book) (q a : Z) : M Library loc :=
  λ lib, (Ret (length (heap lib)),
          with_heap (heap lib ++ [mkLibraryBook b q a]) lib).

(** Reading an attribute of the object behind [l]. *)
Definition getattr {A} (l : loc) (f : LibraryBook → A) : M Library A :=
  λ lib, match heap lib !! l with
         | Some lb => (Ret (f lb), lib)
         | None => (Raise Unallocated, lib)
         end.

(** Writing an attribute of the object behind [l]. *)
Definition setattr (l : loc) (f : LibraryBook → LibraryBook) : M Library unit :=
  λ lib, match heap lib !! l with
         | Some lb => (Ret tt, with_heap (<[l := f lb]> (heap lib)) lib)
         | None => (Raise Unallocated, lib)
         end.

(** [key in self.index] *)
Definition index_contains (k : BookKey) : M Library bool :=
  gets (λ lib, bool_decide (is_Some (index lib !! k))).

(** [self.index.get(key)] *)
Definition index_get (k : BookKey) : M Library (option loc) :=
  gets (λ lib, index lib !! k).

(** [self.index[key]] *)
Definition index_getitem (k : BookKey) : M Library loc :=
  λ lib, match index lib !! k with
         | Some l => (Ret l, lib)
         | None => (Raise KeyError, lib)
         end.

(** [self.index[key] = l] *)
Definition index_setitem (k : BookKey) (l : loc) : M Library unit :=
  modify (λ lib, mkLibrary (heap lib) (library_books lib) (<[k := l]> (index lib))).

(** [self.library_books.append(l)] *)
Definition library_books_append (l : loc) : M Library unit :=
  modify (λ lib, mkLibrary (heap lib) (library_books lib ++ [l]) (index lib)).

(** *** Methods *)

(** [LibraryBook.inc] *)
Definition inc (self : loc) : M Library unit :=
  a <- getattr self available_qty ;;
  setattr self (with_available_qty (a + 1)) ;;
  q <- getattr self qty ;;
  setattr self (with_qty (q + 1)).

(** [Library.add_book] *)
Definition add_book (b : Book) : M Library unit :=
  let book_key := from_book b in
  present <- index_contains book_key ;;
  if (present : bool) then
    lb <- index_getitem book_key ;;
    inc lb
  else
    lb <- new_LibraryBook b 1 1 ;;
    library_books_append lb ;;
    index_setitem book_key lb.

(** [Library.get_book] *)
Definition get_book (t a : string) : M Library (option loc) :=
  index_get (mkBookKey t a).

(** [Library.checkout].  A [LibraryBook] defines neither [__bool__] nor
    [__len__], so [not lb] holds exactly when [lb] is [None]. *)
Definition checkout (t a : string) : M Library (option Book) :=
  lb <- index_get (mkBookKey t a) ;;
  match lb with
  | None => ret None
  | Some lb =>
      av <- getattr lb available_qty ;;
      if (av =? 0)%Z then ret None
      else
        setattr lb (with_available_qty (av - 1)) ;;
        bk <- getattr lb book ;;
        ret (Some bk)
  end.

(** [Library.return_book] *)
Definition return_book (b : Book) : M Library unit :=
  lb <- index_getitem (mkBookKey (title b) (author b)) ;;
  av <- getattr lb available_qty ;;
  setattr lb (with_available_qty (av + 1)).

(** ** class LibraryBookIter *)

(** [book_iter] is the list iterator [iter(library.library_books)], held as
    the part of the list it has not produced yet: the library is not changed
    while one of its iterators is in use.  The [library] attribute is the
    library itself, which the methods below take as an argument and only
    read. *)
Record LibraryBookIter : Type := mkLibraryBookIter {
  book_iter : list loc;
  current_book : option loc;
  qty_counter : Z
}.

(** [LibraryBookIter.__init__], reached through [Library.__iter__]. *)
Definition __iter__ (lib : Library) : LibraryBookIter :=
  mkLibraryBookIter (library_books lib) None 1.

(** [next(self.book_iter)] *)
Definition next_book_iter : M LibraryBookIter loc :=
  λ it, match book_iter it with
        | l :: rest => (Ret l, mkLibraryBookIter rest (current_book it) (qty_counter it))
        | [] => (Raise StopIteration, it)
        end.

Definition set_current_book (l : loc) : M LibraryBookIter unit :=
  modify (λ it, mkLibraryBookIter (book_iter it) (Some l) (qty_counter it)).
Definition set_qty_counter (k : Z) : M LibraryBookIter unit :=
  modify (λ it, mkLibraryBookIter (book_iter it) (current_book it) k).

(** Reading [l.available_qty] from inside the iterator. *)
Definition available_of (lib : Library) (l : loc) : M LibraryBookIter Z :=
  λ it, match heap lib !! l with
        | Some lb => (Ret (available_qty lb), it)
        | None => (Raise Unallocated, it)
        end.

(** [while self.current_book.available_qty == 0:
       self.current_book = next(self.book_iter)]
    entered with [self.current_book = cur]; every round consumes one element
    of [book_iter], which is what the recursion follows. *)
Fixpoint skip_unavailable (lib : Library) (cur : loc) (rest : list loc) (k : Z)
  : outcome loc * LibraryBookIter :=
  match heap lib !! cur with
  | None => (Raise Unallocated, mkLibraryBookIter rest (Some cur) k)
  | Some lb =>
      if (available_qty lb =? 0)%Z then
        match rest with
        | [] => (Raise StopIteration, mkLibraryBookIter [] (Some cur) k)
        | l :: rest' => skip_unavailable lib l rest' k
        end
      else (Ret cur, mkLibraryBookIter rest (Some cur) k)
  end.

Definition while_unavailable (lib : Library) (cur : loc) : M LibraryBookIter loc :=
  λ it, skip_unavailable lib cur (book_iter it) (qty_counter it).

(** [LibraryBookIter.__next__] *)
Definition __next__ (lib : Library) : M LibraryBookIter loc :=
  cur <- gets current_book ;;
  cur <- match cur with
         | None =>
             l <- next_book_iter ;;
             set_current_book l ;;
             set_qty_counter 0 ;;
             ret l
         | Some l => ret l
         end ;;
  av <- available_of lib cur ;;
  k <- gets qty_counter ;;
  if (av >? k)%Z then
    set_qty_counter (k + 1) ;;
    ret cur
  else
    l <- next_book_iter ;;
    set_current_book l ;;
    l <- while_unavailable lib l ;;
    set_qty_counter 1 ;;
    ret l.

(** [list(it)]: call [__next__] until it raises [StopIteration].  [None]
    means the given number of calls did not reach the end. *)
Fixpoint collect (fuel : nat) (lib : Library) (it : LibraryBookIter)
  : option (outcome (list loc)) :=
  match fuel with
  | O => None
  | S fuel' =>
      match __next__ lib it with
      | (Ret l, it') =>
          match collect fuel' lib it' with
          | Some (Ret ls) => Some (Ret (l :: ls))
          | r => r
          end
      | (Raise StopIteration, _) => Some (Ret [])
      | (Raise e, _) => Some (Raise e)
      end
  end.

(** ** Client operations and the libraries they can build *)

Inductive op : Type :=
  | Add (b : Book)
  | Checkout (t a : string)
  | Return (b : Book).

(** The state after one call; an exception leaves the state the method had
    reached, and the client goes on. *)
Definition exec (o : op) (lib : Library) : Library :=
  match o with
  | Add b => snd (add_book b lib)
  | Checkout t a => snd (checkout t a lib)
  | Return b => snd (return_book b lib)
  end.

Definition run (ops : list op) (lib : Library) : Library :=
  foldl (λ s o, exec o s) lib ops.

(** The libraries a client can hold. *)
Definition reachable (lib : Library) : Prop :=
  ∃ ops, lib = run ops Library_init.

(** * What each method does, on any state *)

Section Methods.
Implicit Types (lib : Library) (b : Book) (l : loc) (lb : LibraryBook).

(** The object [add_book] leaves behind [l] after [inc]. *)
Definition added_copy lb : LibraryBook :=
  mkLibraryBook (book lb) (qty lb + 1) (available_qty lb + 1).

(** The library after [add_book] met an unknown key. *)
Definition with_new_record b lib : Library :=
  mkLibrary (heap lib ++ [mkLibraryBook b 1 1])
            (library_books lib ++ [length (heap lib)])
            (<[from_book b := length (heap lib)]> (index lib)).

Lemma inc_allocated lib l lb :
  heap lib !! l = Some lb →
  inc l lib = (Ret tt, with_heap (<[l := added_copy lb]> (heap lib)) lib).
Proof.
  intros Hl. pose proof (lookup_lt_Some _ _ _ Hl) as Hlt.
  unfold inc, bind, getattr, setattr. rewrite Hl. cbn. rewrite Hl. cbn.
  rewrite list_lookup_insert_eq by done. cbn.
  rewrite list_lookup_insert_eq by done. cbn.
  by rewrite list_insert_insert_eq.
Qed.

Lemma add_book_absent lib b :
  index lib !! from_book b = None →
  add_book b lib = (Ret tt, with_new_record b lib).
Proof.
  intros Hk. unfold add_book, bind, index_contains, gets. cbn.
  rewrite Hk. rewrite bool_decide_eq_false_2 by (by intros [? ?]). done.
Qed.

Lemma add_book_present lib b l lb :
  index lib !! from_book b = Some l →
  heap lib !! l = Some lb →
  add_book b lib = (Ret tt, with_heap (<[l := added_copy lb]> (heap lib)) lib).
Proof.
  intros Hk Hl. unfold add_book, bind, index_contains, index_getitem, gets. cbn.
  rewrite Hk. rewrite bool_decide_eq_true_2 by eauto. rewrite Hk.
  by apply inc_allocated.
Qed.

Lemma checkout_absent lib t a :
  index lib !! mkBookKey t a = None →
  checkout t a lib = (Ret None, lib).
Proof. intros Hk. unfold checkout, bind, index_get, gets. by rewrite Hk. Qed.

Lemma checkout_exhausted lib t a l lb :
  index lib !! mkBookKey t a = Some l →
  heap lib !! l = Some lb →
  available_qty lb = 0%Z →
  checkout t a lib = (Ret None, lib).
Proof.
  intros Hk Hl Hz. unfold checkout, bind, index_get, gets, getattr.
  rewrite Hk, Hl, Hz. done.
Qed.

Lemma checkout_available lib t a l lb :
  index lib !! mkBookKey t a = Some l →
  heap lib !! l = Some lb →
  available_qty lb ≠ 0%Z →
  checkout t a lib =
    (Ret (Some (book lb)),
     with_heap (<[l := with_available_qty (available_qty lb - 1) lb]> (heap lib)) lib).
Proof.
  intros Hk Hl Hz. pose proof (lookup_lt_Some _ _ _ Hl) as Hlt.
  unfold checkout, bind, index_get, gets, getattr, setattr.
  rewrite Hk, Hl. apply Z.eqb_neq in Hz. rewrite Hz. cbn. rewrite Hl. cbn.
  by rewrite list_lookup_insert_eq.
Qed.

Lemma return_book_untracked lib b :
  index lib !! from_book b = None →
  return_book b lib = (Raise KeyError, lib).
Proof. intros Hk. unfold return_book, bind, index_getitem. fold (from_book b). by rewrite Hk. Qed.

Lemma return_book_tracked lib b l lb :
  index lib !! from_book b = Some l →
  heap lib !! l = Some lb →
  return_book b lib =
    (Ret tt,
     with_heap (<[l := with_available_qty (available_qty lb + 1) lb]> (heap lib)) lib).
Proof.
  intros Hk Hl. unfold return_book, bind, index_getitem, getattr, setattr.
  fold (from_book b). rewrite Hk, Hl. cbn. by rewrite Hl.
Qed.
End Methods.

(** * Invariants of the libraries a client can build *)

(** Sequence and index describe the same objects, each under its own key, and
    the counters of every object are in range. *)
Record consistent (lib : Library) : Prop := mkConsistent {
  index_in_books : ∀ k l, index lib !! k = Some l → l ∈ library_books lib;
  index_keyed : ∀ k l, index lib !! k = Some l →
    ∃ lb, heap lib !! l = Some lb ∧ from_book (book lb) = k;
  books_indexed : ∀ l, l ∈ library_books lib →
    ∃ lb, heap lib !! l = Some lb ∧ index lib !! from_book (book lb) = Some l;
  books_NoDup : NoDup (library_books lib);
  heap_in_books : ∀ l lb, heap lib !! l = Some lb → l ∈ library_books lib;
  counts_positive : ∀ l lb, heap lib !! l = Some lb →
    (0 ≤ available_qty lb)%Z ∧ (1 ≤ qty lb)%Z
}.

Section Invariants.
Implicit Types (lib : Library) (b : Book) (l : loc) (lb : LibraryBook).

Lemma consistent_init : consistent Library_init.
Proof.
  split; cbn.
  - intros k l Hk. by rewrite lookup_empty in Hk.
  - intros k l Hk. by rewrite lookup_empty in Hk.
  - intros l Hl. by apply elem_of_nil in Hl.
  - constructor.
  - intros l lb Hl. by rewrite lookup_nil in Hl.
  - intros l lb Hl. by rewrite lookup_nil in Hl.
Qed.

(** Reading the store after one object was overwritten. *)
Lemma lookup_overwritten (h : list LibraryBook) l l' lb lb' x :
  h !! l = Some lb →
  <[l := lb']> h !! l' = Some x →
  (l' = l ∧ x = lb') ∨ (l' ≠ l ∧ h !! l' = Some x).
Proof.
  intros Hl Hx. pose proof (lookup_lt_Some _ _ _ Hl) as Hlt.
  destruct (decide (l = l')) as [->|Hne].
  - rewrite list_lookup_insert_eq in Hx by done. left. split; congruence.
  - rewrite list_lookup_insert_ne in Hx by done. right. split; [congruence|done].
Qed.

(** Any write that keeps an object's book and leaves its counters in range
    keeps the library consistent. *)
Lemma consistent_overwrite lib l lb lb' :
  consistent lib →
  heap lib !! l = Some lb →
  book lb' = book lb →
  (0 ≤ available_qty lb')%Z → (1 ≤ qty lb')%Z →
  consistent (with_heap (<[l := lb']> (heap lib)) lib).
Proof.
  intros [Hib Hik Hbi Hnd Hhb Hc] Hl Hbook Ha Hq.
  pose proof (lookup_lt_Some _ _ _ Hl) as Hlt.
  assert (Hrd : ∀ l' x, heap lib !! l' = Some x →
            ∃ x', <[l := lb']> (heap lib) !! l' = Some x' ∧ book x' = book x).
  { intros l' x Hx. destruct (decide (l = l')) as [->|Hne].
    - exists lb'. rewrite list_lookup_insert_eq by done. split; congruence.
    - exists x. by rewrite list_lookup_insert_ne. }
  split; cbn.
  - done.
  - intros k l' Hk. destruct (Hik _ _ Hk) as (x & Hx & Hkx).
    destruct (Hrd _ _ Hx) as (x' & Hx' & Hb). exists x'. split; [done|congruence].
  - intros l' Hin. destruct (Hbi _ Hin) as (x & Hx & Hkx).
    destruct (Hrd _ _ Hx) as (x' & Hx' & Hb). exists x'. split; [done|congruence].
  - done.
  - intros l' x Hx. destruct (lookup_overwritten _ _ _ _ _ _ Hl Hx) as [[-> _]|[_ Hx']]; eauto.
  - intros l' x Hx. destruct (lookup_overwritten _ _ _ _ _ _ Hl Hx) as [[_ ->]|[_ Hx']]; eauto.
Qed.

Lemma consistent_new_record lib b :
  consistent lib →
  index lib !! from_book b = None →
  consistent (with_new_record b lib).
Proof.
  intros [Hib Hik Hbi Hnd Hhb Hc] Hk.
  assert (Hfresh : length (heap lib) ∉ library_books lib).
  { intros Hin. destruct (Hbi _ Hin) as (x & Hx & _).
    apply lookup_lt_Some in Hx. lia. }
  split; cbn.
  - intros k l. rewrite lookup_insert. case_decide as Heq.
    + intros [= <-]. apply elem_of_app. right. by apply list_elem_of_singleton.
    + intros Hl. apply elem_of_app. left. eauto.
  - intros k l. rewrite lookup_insert. case_decide as Heq.
    + intros [= <-]. exists (mkLibraryBook b 1 1). split; [|done].
      by rewrite lookup_app_r, Nat.sub_diag.
    + intros Hl. destruct (Hik _ _ Hl) as (x & Hx & Hkx). exists x.
      split; [|done]. by apply lookup_app_l_Some.
  - intros l [Hin|Hin]%elem_of_app.
    + destruct (Hbi _ Hin) as (x & Hx & Hkx). exists x. split.
      * by apply lookup_app_l_Some.
      * rewrite lookup_insert_ne; [done|]. intros Heq. congruence.
    + apply list_elem_of_singleton in Hin as ->. exists (mkLibraryBook b 1 1). cbn. split.
      * by rewrite lookup_app_r, Nat.sub_diag.
      * by rewrite lookup_insert_eq.
  - apply NoDup_app. split; [done|]. split; [|apply NoDup_singleton].
    intros l Hin ->%list_elem_of_singleton. done.
  - intros l x Hx. apply elem_of_app. apply lookup_app_Some in Hx as [Hx|[Hge Hx]].
    + left. eauto.
    + right. apply list_elem_of_singleton.
      apply lookup_lt_Some in Hx as Hlt. cbn in Hlt. lia.
  - intros l x Hx. apply lookup_app_Some in Hx as [Hx|[Hge Hx]]; [eauto|].
    apply list_lookup_singleton_Some in Hx as [_ <-]. cbn. lia.
Qed.

(** Every call, returning or raising, keeps the library consistent. *)
Lemma consistent_exec lib o : consistent lib → consistent (exec o lib).
Proof.
  intros Hc. destruct o as [b|t a|b]; unfold exec.
  - destruct (index lib !! from_book b) as [l|] eqn:Hk.
    + destruct (index_keyed _ Hc _ _ Hk) as (lb & Hl & _).
      rewrite (add_book_present _ _ _ _ Hk Hl). cbn.
      destruct (counts_positive _ Hc _ _ Hl).
      apply (consistent_overwrite _ _ lb); cbn; [done..|lia|lia].
    + rewrite (add_book_absent _ _ Hk). cbn. by apply consistent_new_record.
  - destruct (index lib !! mkBookKey t a) as [l|] eqn:Hk.
    + destruct (index_keyed _ Hc _ _ Hk) as (lb & Hl & _).
      destruct (decide (available_qty lb = 0%Z)) as [Hz|Hz].
      * by rewrite (checkout_exhausted _ _ _ _ _ Hk Hl Hz).
      * rewrite (checkout_available _ _ _ _ _ Hk Hl Hz). cbn.
        destruct (counts_positive _ Hc _ _ Hl).
        apply (consistent_overwrite _ _ lb); cbn; [done..|lia|lia].
    + by rewrite (checkout_absent _ _ _ Hk).
  - destruct (index lib !! from_book b) as [l|] eqn:Hk.
    + destruct (index_keyed _ Hc _ _ Hk) as (lb & Hl & _).
      rewrite (return_book_tracked _ _ _ _ Hk Hl). cbn.
      destruct (counts_positive _ Hc _ _ Hl).
      apply (consistent_overwrite _ _ lb); cbn; [done..|lia|lia].
    + by rewrite (return_book_untracked _ _ Hk).
Qed.

Lemma consistent_run ops lib : consistent lib → consistent (run ops lib).
Proof.
  revert lib. induction ops as [|o ops IH]; intros lib Hc; [done|].
  cbn. apply IH. by apply consistent_exec.
Qed.

Lemma reachable_consistent lib : reachable lib → consistent lib.
Proof. intros [ops ->]. apply consistent_run, consistent_init. Qed.

End Invariants.

(** * Iterating over a library *)

(** The copies of the object behind [l] that are on the shelf, once [k] of
    them have been produced. *)
Definition copies_left (lib : Library) (l : loc) (k : Z) : nat :=
  match heap lib !! l with
  | Some lb => Z.to_nat (available_qty lb - k)
  | None => O
  end.

(** Each reference of [ls], in order, once per copy on the shelf. *)
Definition expand (lib : Library) (ls : list loc) : list loc :=
  flat_map (λ l, replicate (copies_left lib l 0) l) ls.

(** The copies of the object behind [l] that are on the shelf. *)
Definition on_shelf (lib : Library) (l : loc) : nat :=
  match heap lib !! l with
  | Some lb => Z.to_nat (available_qty lb)
  | None => O
  end.

(** The sequence with every record repeated once per copy on the shelf. *)
Definition available_copies (lib : Library) : list loc :=
  flat_map (λ l, replicate (on_shelf lib l) l) (library_books lib).

(** What an iterator still has to produce. *)
Definition pending (lib : Library) (it : LibraryBookIter) : list loc :=
  match current_book it with
  | None => expand lib (book_iter it)
  | Some c => replicate (copies_left lib c (qty_counter it)) c ++ expand lib (book_iter it)
  end.

(** The object behind [l] exists and its [available_qty] is not negative. *)
Definition stocked (lib : Library) (l : loc) : Prop :=
  ∃ lb, heap lib !! l = Some lb ∧ (0 ≤ available_qty lb)%Z.

(** The states an iterator goes through between two calls of [__next__]. *)
Definition iter_ok (lib : Library) (it : LibraryBookIter) : Prop :=
  Forall (stocked lib) (book_iter it) ∧
  match current_book it with
  | None => True
  | Some c => ∃ lb, heap lib !! c = Some lb
                ∧ (0 ≤ qty_counter it ≤ available_qty lb)%Z
  end.

Section Iteration.
Variable lib : Library.
Implicit Types (l c : loc) (rest : list loc) (k : Z) (it : LibraryBookIter).

Lemma next_start_empty k :
  __next__ lib (mkLibraryBookIter [] None k)
  = (Raise StopIteration, mkLibraryBookIter [] None k).
Proof. reflexivity. Qed.

(** The first call fetches the first object and goes on as any later call. *)
Lemma next_start_cons c rest k :
  __next__ lib (mkLibraryBookIter (c :: rest) None k)
  = __next__ lib (mkLibraryBookIter rest (Some c) 0).
Proof. reflexivity. Qed.

Lemma next_same c rest k lb :
  heap lib !! c = Some lb →
  (k < available_qty lb)%Z →
  __next__ lib (mkLibraryBookIter rest (Some c) k)
  = (Ret c, mkLibraryBookIter rest (Some c) (k + 1)).
Proof.
  intros Hc Hlt. unfold __next__, bind, gets, available_of. cbn. rewrite Hc. cbn.
  by rewrite (proj2 (Z.gtb_lt _ _) Hlt).
Qed.

Lemma next_end c k lb :
  heap lib !! c = Some lb →
  (available_qty lb ≤ k)%Z →
  __next__ lib (mkLibraryBookIter [] (Some c) k)
  = (Raise StopIteration, mkLibraryBookIter [] (Some c) k).
Proof.
  intros Hc Hle. unfold __next__, bind, gets, available_of. cbn. rewrite Hc. cbn.
  destruct (Z.gtb_spec (available_qty lb) k); [lia|done].
Qed.

Lemma next_other c l rest k lb :
  heap lib !! c = Some lb →
  (available_qty lb ≤ k)%Z →
  __next__ lib (mkLibraryBookIter (l :: rest) (Some c) k)
  = match skip_unavailable lib l rest k with
    | (Ret c', it') => (Ret c', mkLibraryBookIter (book_iter it') (current_book it') 1)
    | (Raise e, it') => (Raise e, it')
    end.
Proof.
  intros Hc Hle. unfold __next__, bind, gets, available_of. cbn. rewrite Hc. cbn.
  destruct (Z.gtb_spec (available_qty lb) k); [lia|].
  unfold while_unavailable. cbn. by destruct (skip_unavailable lib l rest k) as [[?|?] ?].
Qed.

Lemma expand_cons l rest :
  expand lib (l :: rest) = replicate (copies_left lib l 0) l ++ expand lib rest.
Proof. reflexivity. Qed.

(** The loop stops at the first object with a copy on the shelf, or runs
    off the end when there is none. *)
Lemma skip_unavailable_spec rest : ∀ cur k,
  stocked lib cur → Forall (stocked lib) rest →
  (∃ it', skip_unavailable lib cur rest k = (Raise StopIteration, it')
          ∧ expand lib (cur :: rest) = [])
  ∨ (∃ c' rest' lb, skip_unavailable lib cur rest k
                      = (Ret c', mkLibraryBookIter rest' (Some c') k)
          ∧ Forall (stocked lib) rest'
          ∧ heap lib !! c' = Some lb ∧ (1 ≤ available_qty lb)%Z
          ∧ expand lib (cur :: rest) = c' :: replicate (copies_left lib c' 1) c' ++ expand lib rest').
Proof.
  induction rest as [|l rest IH]; intros cur k (lb & Hcur & Hnn) Hrest.
  - cbn [skip_unavailable]. rewrite Hcur. destruct (Z.eqb_spec (available_qty lb) 0) as [Hz|Hz].
    + left. eexists. split; [done|]. rewrite expand_cons. unfold copies_left.
      rewrite Hcur, Hz. done.
    + right. exists cur, [], lb. split_and!; [done|done|done|lia|].
      rewrite expand_cons. unfold copies_left. rewrite Hcur.
      replace (Z.to_nat (available_qty lb - 0)) with (S (Z.to_nat (available_qty lb - 1))) by lia.
      done.
  - cbn [skip_unavailable]. rewrite Hcur. destruct (Z.eqb_spec (available_qty lb) 0) as [Hz|Hz].
    + apply Forall_cons in Hrest as [Hl Hrest].
      destruct (IH l k Hl Hrest) as [(it' & Hs & He)|(c' & rest' & lb' & Hs & ? & ? & ? & He)].
      * left. exists it'. split; [done|]. rewrite expand_cons, He. unfold copies_left.
        rewrite Hcur, Hz. done.
      * right. exists c', rest', lb'. split_and!; [done..|].
        rewrite expand_cons, He. unfold copies_left at 1. rewrite Hcur, Hz. done.
    + right. exists cur, (l :: rest), lb. split_and!; [done|done|done|lia|].
      rewrite (expand_cons cur). unfold copies_left at 1 2. rewrite Hcur.
      replace (Z.to_nat (available_qty lb - 0)) with (S (Z.to_nat (available_qty lb - 1))) by lia.
      done.
Qed.

(** One call of [__next__]: it either ends the iteration, with nothing
    pending, or produces the head of what was pending. *)
Lemma next_current c rest k lb :
  heap lib !! c = Some lb →
  (0 ≤ k ≤ available_qty lb)%Z →
  Forall (stocked lib) rest →
  let it := mkLibraryBookIter rest (Some c) k in
  (∃ it', __next__ lib it = (Raise StopIteration, it') ∧ pending lib it = [])
  ∨ (∃ l it', __next__ lib it = (Ret l, it') ∧ iter_ok lib it'
              ∧ pending lib it = l :: pending lib it').
Proof.
  intros Hc Hk Hrest it. subst it.
  destruct (decide (k < available_qty lb)%Z) as [Hlt|Hge].
  - right. eexists _, _. split; [by apply (next_same _ _ _ lb)|]. split.
    + split; [done|]. cbn. exists lb. split; [done|lia].
    + unfold pending, copies_left. cbn. rewrite Hc.
      replace (Z.to_nat (available_qty lb - k))
        with (S (Z.to_nat (available_qty lb - (k + 1)))) by lia.
      done.
  - assert (Hnone : pending lib (mkLibraryBookIter rest (Some c) k) = expand lib rest).
    { unfold pending, copies_left. cbn. rewrite Hc.
      by replace (Z.to_nat (available_qty lb - k)) with O by lia. }
    rewrite Hnone. destruct rest as [|l rest].
    + left. eexists. split; [|done]. apply (next_end _ _ lb); [done|lia].
    + rewrite (next_other _ _ _ _ lb) by (done || lia).
      apply Forall_cons in Hrest as [Hl Hrest].
      destruct (skip_unavailable_spec rest l k Hl Hrest)
        as [(it' & Hs & He)|(c' & rest' & lb' & Hs & Hrest' & Hc' & Hpos & He)];
        rewrite Hs.
      * left. by exists it'.
      * right. eexists _, _. split; [done|]. split.
        -- split; [done|]. cbn. exists lb'. split; [done|lia].
        -- rewrite He. unfold pending. done.
Qed.

Lemma next_spec it :
  iter_ok lib it →
  (∃ it', __next__ lib it = (Raise StopIteration, it') ∧ pending lib it = [])
  ∨ (∃ l it', __next__ lib it = (Ret l, it') ∧ iter_ok lib it'
              ∧ pending lib it = l :: pending lib it').
Proof.
  destruct it as [rest [c|] k]; intros [Hrest Hcur]; cbn in Hrest, Hcur.
  - destruct Hcur as (lb & Hc & Hk). by apply (next_current _ _ _ lb).
  - destruct rest as [|c rest].
    + left. eexists. by rewrite next_start_empty.
    + rewrite next_start_cons. apply Forall_cons in Hrest as [(lb & Hc & Hnn) Hrest].
      replace (pending lib (mkLibraryBookIter (c :: rest) None k))
        with (pending lib (mkLibraryBookIter rest (Some c) 0)) by done.
      apply (next_current _ _ _ lb); [done|lia|done].
Qed.

(** [list(it)] ends and returns what was pending, given one call more than
    there are values. *)
Lemma collect_pending n : ∀ it,
  iter_ok lib it →
  length (pending lib it) < n →
  collect n lib it = Some (Ret (pending lib it)).
Proof.
  induction n as [|n IH]; intros it Hok Hlen; [lia|].
  cbn [collect].
  destruct (next_spec it Hok) as [(it' & Hn & Hp)|(l & it' & Hn & Hok' & Hp)]; rewrite Hn.
  - by rewrite Hp.
  - rewrite Hp in Hlen |- *. cbn in Hlen. rewrite (IH it' Hok') by lia. done.
Qed.
End Iteration.

(** * The history of a library *)

(** Some [add_book] call of [ops] carried the identity [k]. *)
Definition added (ops : list op) (k : BookKey) : Prop :=
  ∃ b, Add b ∈ ops ∧ from_book b = k.

(** The identities in the order in which they were first added. *)
Definition note_add (acc : list BookKey) (o : op) : list BookKey :=
  match o with
  | Add b => if decide (from_book b ∈ acc) then acc else acc ++ [from_book b]
  | _ => acc
  end.

Definition first_adds (ops : list op) : list BookKey := foldl note_add [] ops.

(** The identity of the object behind [l]. *)
Definition record_key (lib : Library) (l : loc) : option BookKey :=
  (λ lb, from_book (book lb)) <$> heap lib !! l.

Definition sequence_keys (lib : Library) : list (option BookKey) :=
  record_key lib <$> library_books lib.

Section History.
Implicit Types (lib : Library) (b : Book) (l : loc) (lb : LibraryBook)
  (k : BookKey) (acc : list BookKey).

Lemma record_key_overwrite lib l lb lb' l' :
  heap lib !! l = Some lb →
  book lb' = book lb →
  record_key (with_heap (<[l := lb']> (heap lib)) lib) l' = record_key lib l'.
Proof.
  intros Hl Hb. pose proof (lookup_lt_Some _ _ _ Hl) as Hlt. unfold record_key. cbn.
  destruct (decide (l = l')) as [<-|Hne].
  - rewrite list_lookup_insert_eq by done. rewrite Hl. cbn. by rewrite Hb.
  - by rewrite list_lookup_insert_ne.
Qed.

Lemma sequence_keys_overwrite lib l lb lb' :
  heap lib !! l = Some lb →
  book lb' = book lb →
  sequence_keys (with_heap (<[l := lb']> (heap lib)) lib) = sequence_keys lib.
Proof.
  intros Hl Hb. unfold sequence_keys. cbn. apply list_fmap_ext.
  intros i l' _. by apply (record_key_overwrite _ _ lb).
Qed.

Lemma sequence_keys_new_record lib b :
  consistent lib →
  sequence_keys (with_new_record b lib) = sequence_keys lib ++ [Some (from_book b)].
Proof.
  intros Hc. unfold sequence_keys. cbn. rewrite fmap_app. f_equal.
  - apply list_fmap_ext. intros i l Hi.
    destruct (books_indexed _ Hc l) as (lb & Hl & _).
    { apply list_elem_of_lookup. eauto. }
    unfold record_key. cbn. by rewrite (lookup_app_l_Some _ _ _ _ Hl), Hl.
  - cbn. unfold record_key. cbn. by rewrite lookup_app_r, Nat.sub_diag.
Qed.

(** With the sequence's identities known, the index holds exactly them. *)
Lemma indexed_iff_listed lib acc k :
  consistent lib →
  sequence_keys lib = Some <$> acc →
  is_Some (index lib !! k) ↔ k ∈ acc.
Proof.
  intros Hc Hkeys. split.
  - intros [l Hk]. destruct (index_keyed _ Hc _ _ Hk) as (lb & Hl & Hkey).
    assert (Hin : Some k ∈ sequence_keys lib).
    { apply list_elem_of_fmap. exists l. split; [|by apply (index_in_books _ Hc k)].
      unfold record_key. rewrite Hl. cbn. by rewrite Hkey. }
    rewrite Hkeys in Hin. apply list_elem_of_fmap in Hin as (k' & [= ->] & Hin). done.
  - intros Hin.
    assert (Hin' : Some k ∈ sequence_keys lib).
    { rewrite Hkeys. apply list_elem_of_fmap. eauto. }
    apply list_elem_of_fmap in Hin' as (l & Hrk & Hl).
    destruct (books_indexed _ Hc _ Hl) as (lb & Hlb & Hidx).
    unfold record_key in Hrk. rewrite Hlb in Hrk. cbn in Hrk.
    injection Hrk as ->. eauto.
Qed.

Lemma sequence_keys_exec lib acc o :
  consistent lib →
  sequence_keys lib = Some <$> acc →
  sequence_keys (exec o lib) = Some <$> note_add acc o.
Proof.
  intros Hc Hkeys. destruct o as [b|t a|b]; unfold exec, note_add.
  - destruct (index lib !! from_book b) as [l|] eqn:Hk.
    + destruct (index_keyed _ Hc _ _ Hk) as (lb & Hl & _).
      rewrite (add_book_present _ _ _ _ Hk Hl). cbn [snd].
      rewrite (sequence_keys_overwrite _ _ lb) by done.
      rewrite decide_True; [done|]. apply (indexed_iff_listed lib); eauto.
    + rewrite (add_book_absent _ _ Hk). cbn [snd].
      rewrite sequence_keys_new_record by done.
      rewrite decide_False.
      * by rewrite Hkeys, fmap_app.
      * intros Hin. apply (indexed_iff_listed lib) in Hin as [l Hl]; [congruence|done..].
  - destruct (index lib !! mkBookKey t a) as [l|] eqn:Hk.
    + destruct (index_keyed _ Hc _ _ Hk) as (lb & Hl & _).
      destruct (decide (available_qty lb = 0%Z)) as [Hz|Hz].
      * by rewrite (checkout_exhausted _ _ _ _ _ Hk Hl Hz).
      * rewrite (checkout_available _ _ _ _ _ Hk Hl Hz). cbn [snd].
        by rewrite (sequence_keys_overwrite _ _ lb).
    + by rewrite (checkout_absent _ _ _ Hk).
  - destruct (index lib !! from_book b) as [l|] eqn:Hk.
    + destruct (index_keyed _ Hc _ _ Hk) as (lb & Hl & _).
      rewrite (return_book_tracked _ _ _ _ Hk Hl). cbn [snd].
      by rewrite (sequence_keys_overwrite _ _ lb).
    + by rewrite (return_book_untracked _ _ Hk).
Qed.

Lemma sequence_keys_run_from ops : ∀ lib acc,
  consistent lib →
  sequence_keys lib = Some <$> acc →
  sequence_keys (run ops lib) = Some <$> foldl note_add acc ops.
Proof.
  induction ops as [|o ops IH]; intros lib acc Hc Hkeys; [done|].
  cbn. apply IH; [by apply consistent_exec|by apply sequence_keys_exec].
Qed.

(** The sequence lists the identities in first-add order. *)
Lemma sequence_keys_run ops :
  sequence_keys (run ops Library_init) = Some <$> first_adds ops.
Proof. by apply sequence_keys_run_from; [apply consistent_init|]. Qed.

Lemma note_add_elem acc o k :
  k ∈ note_add acc o ↔ k ∈ acc ∨ ∃ b, o = Add b ∧ from_book b = k.
Proof.
  destruct o as [b|t a|b]; cbn.
  - case_decide as Hin.
    + split; [by left|]. intros [?|(b' & [= <-] & <-)]; done.
    + rewrite elem_of_app, list_elem_of_singleton. split.
      * intros [? | ->]; [by left|]. right. eauto.
      * intros [?|(b' & [= <-] & <-)]; [by left|by right].
  - split; [by left|]. by intros [?|(b' & ? & _)].
  - split; [by left|]. by intros [?|(b' & ? & _)].
Qed.

Lemma foldl_note_add_elem ops : ∀ acc k,
  k ∈ foldl note_add acc ops ↔ k ∈ acc ∨ added ops k.
Proof.
  induction ops as [|o ops IH]; intros acc k; cbn.
  - split; [by left|]. intros [?|(b & Hin & _)]; [done|]. by apply elem_of_nil in Hin.
  - rewrite IH, note_add_elem. unfold added. split.
    + intros [[?|(b & -> & Hb)]|(b & Hin & Hb)]; [by left|right..].
      * exists b. split; [apply list_elem_of_here|done].
      * exists b. split; [by apply list_elem_of_further|done].
    + intros [?|(b & Hin & Hb)]; [by left; left|].
      apply elem_of_cons in Hin as [<-|Hin]; [left; right; eauto|right; eauto].
Qed.

Lemma first_adds_elem ops k : k ∈ first_adds ops ↔ added ops k.
Proof.
  unfold first_adds. rewrite foldl_note_add_elem. split; [|by right].
  intros [Hin|?]; [|done]. by apply elem_of_nil in Hin.
Qed.

(** An identity is in the index exactly when it was added. *)
Lemma indexed_iff_added ops k :
  is_Some (index (run ops Library_init) !! k) ↔ added ops k.
Proof.
  rewrite <- first_adds_elem. apply indexed_iff_listed.
  - apply consistent_run, consistent_init.
  - apply sequence_keys_run.
Qed.
End History.

(** * Iteration ends on every library *)

(** An upper bound on the calls of [__next__] that can still return: one per
    object not yet fetched, and one per copy that may still be produced. *)
Definition fetch_bound (lib : Library) (ls : list loc) : nat :=
  foldr (λ l n, S (copies_left lib l 0) + n) O ls.

Definition calls_bound (lib : Library) (it : LibraryBookIter) : nat :=
  fetch_bound lib (book_iter it) +
  match current_book it with
  | None => 1
  | Some c => copies_left lib c (qty_counter it)
  end.

(** The sum of [available_qty] over the sequence. *)
Definition total_available (lib : Library) : Z :=
  foldr (λ l s, (match heap lib !! l with
                 | Some lb => available_qty lb
                 | None => 0
                 end + s)%Z) 0%Z (library_books lib).

Section Termination.
Variable lib : Library.
Implicit Types (l c : loc) (rest : list loc) (k : Z) (it : LibraryBookIter).

Lemma skip_unavailable_bound rest : ∀ cur k c' it',
  skip_unavailable lib cur rest k = (Ret c', it') →
  current_book it' = Some c' ∧ qty_counter it' = k
  ∧ fetch_bound lib (book_iter it') + S (copies_left lib c' 0)
    ≤ fetch_bound lib rest + S (copies_left lib cur 0).
Proof.
  induction rest as [|l rest IH]; intros cur k c' it'; cbn [skip_unavailable].
  - destruct (heap lib !! cur) as [lb|]; [|done].
    destruct (available_qty lb =? 0)%Z; [done|]. intros [= <- <-]. cbn. done.
  - destruct (heap lib !! cur) as [lb|] eqn:Hcur; [|done].
    destruct (available_qty lb =? 0)%Z.
    + intros Hs. destruct (IH _ _ _ _ Hs) as (? & ? & Hle). split_and!; [done..|].
      cbn [fetch_bound foldr]. fold (fetch_bound lib rest). lia.
    + intros [= <- <-]. cbn [book_iter current_book qty_counter]. split_and!; [done..|lia].
Qed.

Lemma next_current_bound c rest k l it' :
  __next__ lib (mkLibraryBookIter rest (Some c) k) = (Ret l, it') →
  calls_bound lib it' < calls_bound lib (mkLibraryBookIter rest (Some c) k).
Proof.
  unfold calls_bound at 2. cbn [book_iter current_book qty_counter].
  destruct (heap lib !! c) as [lb|] eqn:Hc.
  - destruct (decide (k < available_qty lb)%Z) as [Hlt|Hge].
    + rewrite (next_same _ _ _ _ lb) by done. intros [= <- <-].
      unfold calls_bound. cbn [book_iter current_book qty_counter].
      unfold copies_left. rewrite Hc. lia.
    + destruct rest as [|l' rest].
      * rewrite (next_end _ _ _ lb) by (done || lia). done.
      * rewrite (next_other _ _ _ _ _ lb) by (done || lia).
        destruct (skip_unavailable lib l' rest k) as [[c'|e] it''] eqn:Hs; [|done].
        intros [= <- <-]. apply skip_unavailable_bound in Hs as (Hcur & _ & Hle).
        unfold calls_bound. cbn [book_iter current_book qty_counter]. rewrite Hcur.
        cbn [fetch_bound foldr]. fold (fetch_bound lib rest).
        assert (copies_left lib c' 1 ≤ copies_left lib c' 0); [|lia].
        unfold copies_left. destruct (heap lib !! c'); lia.
  - unfold __next__, bind, gets, available_of. cbn. by rewrite Hc.
Qed.

(** Every call that returns a value lowers the bound. *)
Lemma next_bound it l it' :
  __next__ lib it = (Ret l, it') → calls_bound lib it' < calls_bound lib it.
Proof.
  destruct it as [rest [c|] k].
  - apply next_current_bound.
  - destruct rest as [|c rest]; [by rewrite next_start_empty|].
    rewrite next_start_cons. intros Hn%next_current_bound.
    unfold calls_bound in Hn |- *. cbn [book_iter current_book qty_counter] in Hn |- *.
    cbn [fetch_bound foldr]. fold (fetch_bound lib rest). lia.
Qed.

Lemma collect_total n : ∀ it,
  calls_bound lib it < n → ∃ r, collect n lib it = Some r.
Proof.
  induction n as [|n IH]; intros it Hlt; [lia|]. cbn [collect].
  destruct (__next__ lib it) as [[l|e] it'] eqn:Hn.
  - apply next_bound in Hn. destruct (IH it') as [r ->]; [lia|].
    destruct r; eauto.
  - destruct e; eauto.
Qed.

(** More calls than needed change nothing. *)
Lemma collect_more n : ∀ it r m,
  collect n lib it = Some r → n ≤ m → collect m lib it = Some r.
Proof.
  induction n as [|n IH]; intros it r m Hn Hle; [done|].
  destruct m as [|m]; [lia|]. cbn [collect] in Hn |- *.
  destruct (__next__ lib it) as [[l|e] it']; [|done].
  destruct (collect n lib it') as [r'|] eqn:Hr.
  - rewrite (IH it' r' m Hr) by lia. done.
  - done.
Qed.

Lemma length_expand ls :
  Forall (stocked lib) ls →
  Z.of_nat (length (expand lib ls))
  = foldr (λ l s, (match heap lib !! l with
                   | Some lb => available_qty lb
                   | None => 0
                   end + s)%Z) 0%Z ls.
Proof.
  induction 1 as [|l ls (lb & Hl & Hnn) _ IH]; [done|].
  rewrite expand_cons, length_app, length_replicate, Nat2Z.inj_add, IH. cbn [foldr].
  unfold copies_left. rewrite Hl. lia.
Qed.
End Termination.

Lemma consistent_stocked lib :
  consistent lib → Forall (stocked lib) (library_books lib).
Proof.
  intros Hc. apply Forall_forall. intros l Hin.
  destruct (books_indexed _ Hc _ Hin) as (lb & Hl & _).
  exists lb. split; [done|]. by destruct (counts_positive _ Hc _ _ Hl).
Qed.

Lemma iter_ok_start lib : consistent lib → iter_ok lib (__iter__ lib).
Proof. intros Hc. split; [by apply consistent_stocked|done]. Qed.

(** * The books of the test suite *)

Definition LOTR : Book := mkBook "LOTR" "Tolkien" "Fantasy" 1000.
Definition Lord_of_Light : Book := mkBook "Lord of Light" "Roger Zelazny" "Fantasy" 400.
Definition Sherlock : Book := mkBook "Sherlock" "Conan-Doyle" "Crime" 200.
Definition Oliver_Twist : Book := mkBook "Olilver Twist" "Dickens" "Fiction" 800.
Definition test_books : list Book := [LOTR; Lord_of_Light; Sherlock; Oliver_Twist].

(** A second edition of the first book: same identity, other genre and size. *)
Definition LOTR_paperback : Book := mkBook "LOTR" "Tolkien" "Paperback" 1200.

(** The test suite's scenarios, run on the embedding. *)

Example test_add_books :
  let lib1 := run [Add LOTR] Library_init in
  let lib2 := run [Add LOTR; Add LOTR] Library_init in
  fst (get_book "LOTR" "Tolkien" lib1) = Ret (Some 0)
  ∧ heap lib1 !! 0 = Some (mkLibraryBook LOTR 1 1)
  ∧ fst (get_book "LOTR" "Tolkien" lib2) = Ret (Some 0)
  ∧ heap lib2 !! 0 = Some (mkLibraryBook LOTR 2 2).
Proof. by vm_compute. Qed.

Example test_chekcout :
  let lib1 := run [Add LOTR] Library_init in
  let lib2 := snd (checkout "LOTR" "Tolkien" lib1) in
  let lib3 := snd (return_book LOTR lib2) in
  fst (checkout "LOTR" "Tolkien" lib1) = Ret (Some LOTR)
  ∧ fst (checkout "LOTR" "Tolkien" lib2) = Ret None
  ∧ fst (return_book LOTR lib2) = Ret tt
  ∧ fst (checkout "LOTR" "Tolkien" lib3) = Ret (Some LOTR).
Proof. by vm_compute. Qed.

Example test_library_iter :
  let lib4 := run (Add <$> test_books) Library_init in
  let lib8 := run (Add <$> test_books) lib4 in
  collect 5 lib4 (__iter__ lib4) = Some (Ret [0; 1; 2; 3])
  ∧ collect 9 lib8 (__iter__ lib8) = Some (Ret [0; 0; 1; 1; 2; 2; 3; 3]).
Proof. by vm_compute. Qed.

Example test_library_iter_skip_unavailable :
  let lib := run ((Add <$> test_books) ++ [Checkout "LOTR" "Tolkien"]) Library_init in
  collect 4 lib (__iter__ lib) = Some (Ret [1; 2; 3]).
Proof. by vm_compute. Qed.

(** The only record has no copy on the shelf: the first call already ends
    the iteration. *)
Example iter_only_record_unavailable :
  let lib := run [Add LOTR; Checkout "LOTR" "Tolkien"] Library_init in
  collect 1 lib (__iter__ lib) = Some (Ret []).
Proof. by vm_compute. Qed.

(** * Lookup *)

(** C9: [get_book t a] looks the identity [(t, a)] up in the index and returns
    what it finds, a reference to the record or [None]; it never raises and
    leaves every library as it was.  In a library built by [ops], the record it
    returns is in the sequence and carries that identity, and it returns [None]
    exactly for an identity that was never added. *)
Theorem get_book_spec (lib : Library) (t a : string) :
  get_book t a lib = (Ret (index lib !! mkBookKey t a), lib)
  ∧ ∀ ops, lib = run ops Library_init →
      match index lib !! mkBookKey t a with
      | Some l => added ops (mkBookKey t a) ∧ l ∈ library_books lib
                  ∧ ∃ lb, heap lib !! l = Some lb ∧ from_book (book lb) = mkBookKey t a
      | None => ¬ added ops (mkBookKey t a)
      end.
Proof.
  split; [done|]. intros ops ->.
  pose proof (consistent_run ops _ consistent_init) as Hc.
  pose proof (indexed_iff_added ops (mkBookKey t a)) as Hadd.
  destruct (index (run ops Library_init) !! mkBookKey t a) as [l|] eqn:Hk.
  - split; [apply Hadd; eauto|]. split; [by apply (index_in_books _ Hc _ _ Hk)|].
    by apply (index_keyed _ Hc).
  - intros [l Hl]%Hadd. done.
Qed.

Lemma get_book_spec_witness :
  get_book "LOTR" "Tolkien" (run [Add LOTR] Library_init)
    = (Ret (Some 0), run [Add LOTR] Library_init)
  ∧ get_book "Sherlock" "Conan-Doyle" (run [Add LOTR] Library_init)
    = (Ret None, run [Add LOTR] Library_init).
Proof.
  split.
  - exact (proj1 (get_book_spec (run [Add LOTR] Library_init) "LOTR" "Tolkien")).
  - exact (proj1 (get_book_spec (run [Add LOTR] Library_init) "Sherlock" "Conan-Doyle")).
Defined.

(** * Adding *)

(** C4: in every library a client can hold, [add_book b] returns without an
    exception.  For an identity the index does not know it creates a record
    with [qty = 1] and [available_qty = 1], appends it to the sequence and
    registers it under the identity; for a known identity it adds 1 to both
    counters of the record the index holds and changes nothing else.  Adding
    two books of one identity to a library that did not know it leaves one
    record, for the first book, with both counters at 2, whatever the genre
    and size of the second. *)
Theorem add_book_spec (lib : Library) (b : Book) :
  reachable lib →
  (index lib !! from_book b = None →
     add_book b lib
     = (Ret tt, mkLibrary (heap lib ++ [mkLibraryBook b 1 1])
                          (library_books lib ++ [length (heap lib)])
                          (<[from_book b := length (heap lib)]> (index lib))))
  ∧ (∀ l, index lib !! from_book b = Some l →
       ∃ lb, heap lib !! l = Some lb
         ∧ add_book b lib
           = (Ret tt, mkLibrary
                        (<[l := mkLibraryBook (book lb) (qty lb + 1) (available_qty lb + 1)]>
                           (heap lib))
                        (library_books lib) (index lib)))
  ∧ (∀ b', from_book b' = from_book b → index lib !! from_book b = None →
       let lib2 := exec (Add b') (exec (Add b) lib) in
       ∃ l, index lib2 !! from_book b = Some l
         ∧ heap lib2 !! l = Some (mkLibraryBook b 2 2)
         ∧ library_books lib2 = library_books lib ++ [l]).
Proof.
  intros Hc%reachable_consistent. split_and!.
  - apply add_book_absent.
  - intros l Hk. destruct (index_keyed _ Hc _ _ Hk) as (lb & Hl & _).
    exists lb. split; [done|]. by apply add_book_present.
  - intros b' Hkey Hk lib2. subst lib2. unfold exec.
    rewrite (add_book_absent _ _ Hk). cbn [snd].
    assert (Hk1 : index (with_new_record b lib) !! from_book b' = Some (length (heap lib))).
    { rewrite Hkey. cbn. apply lookup_insert_eq. }
    assert (Hl1 : heap (with_new_record b lib) !! length (heap lib) = Some (mkLibraryBook b 1 1)).
    { cbn. by rewrite lookup_app_r, Nat.sub_diag. }
    rewrite (add_book_present _ _ _ _ Hk1 Hl1). cbn.
    exists (length (heap lib)). split_and!; [apply lookup_insert_eq| |done].
    apply list_lookup_insert_eq. rewrite length_app. cbn. lia.
Qed.

Lemma add_book_spec_witness :
  ∃ l, index (exec (Add LOTR_paperback) (exec (Add LOTR) Library_init)) !! from_book LOTR = Some l
    ∧ heap (exec (Add LOTR_paperback) (exec (Add LOTR) Library_init)) !! l
      = Some (mkLibraryBook LOTR 2 2)
    ∧ library_books (exec (Add LOTR_paperback) (exec (Add LOTR) Library_init))
      = library_books Library_init ++ [l].
Proof.
  assert (Hr : reachable Library_init) by (by exists []).
  apply (proj2 (proj2 (add_book_spec Library_init LOTR Hr)) LOTR_paperback);
    reflexivity.
Defined.

(** * Checking out *)

(** C3: in every library a client can hold, [checkout t a] returns [None] and
    leaves the library as it was when the index does not know [(t, a)] or the
    record has [available_qty = 0]; otherwise it returns the record's book and
    the only change is that record's [available_qty], lowered by exactly 1.
    The counter is never negative before the call and never after. *)
Theorem checkout_spec (lib : Library) (t a : string) :
  reachable lib →
  (index lib !! mkBookKey t a = None → checkout t a lib = (Ret None, lib))
  ∧ (∀ l, index lib !! mkBookKey t a = Some l →
       ∃ lb, heap lib !! l = Some lb ∧ (0 ≤ available_qty lb)%Z
         ∧ (available_qty lb = 0%Z → checkout t a lib = (Ret None, lib))
         ∧ (available_qty lb ≠ 0%Z →
              checkout t a lib
              = (Ret (Some (book lb)),
                 mkLibrary
                   (<[l := mkLibraryBook (book lb) (qty lb) (available_qty lb - 1)]> (heap lib))
                   (library_books lib) (index lib))
              ∧ (0 ≤ available_qty lb - 1)%Z)).
Proof.
  intros Hc%reachable_consistent. split.
  - apply checkout_absent.
  - intros l Hk. destruct (index_keyed _ Hc _ _ Hk) as (lb & Hl & _).
    destruct (counts_positive _ Hc _ _ Hl) as [Hnn _].
    exists lb. split_and!; [done..| |].
    + intros Hz. by apply (checkout_exhausted _ _ _ l lb).
    + intros Hz. split; [by apply (checkout_available _ _ _ l lb)|lia].
Qed.

Lemma checkout_spec_witness :
  checkout "LOTR" "Tolkien" (run [Add LOTR; Checkout "LOTR" "Tolkien"] Library_init)
  = (Ret None, run [Add LOTR; Checkout "LOTR" "Tolkien"] Library_init).
Proof.
  assert (Hr : reachable (run [Add LOTR; Checkout "LOTR" "Tolkien"] Library_init))
    by (by eexists).
  destruct (proj2 (checkout_spec _ "LOTR" "Tolkien" Hr) 0%nat) as (lb & Hl & _ & Hz & _).
  - reflexivity.
  - apply Hz. injection Hl as <-. reflexivity.
Defined.

(** * Returning *)

(** C5: in a library built by [ops], [return_book b] raises [KeyError] and
    leaves the library exactly as it was, with no record created, when no
    [add_book] call of [ops] carried the identity of [b]; when one did, it
    returns and the only change is the [available_qty] of that identity's
    record, raised by exactly 1. *)
Theorem return_book_spec (ops : list op) (b : Book) :
  let lib := run ops Library_init in
  (¬ added ops (from_book b) → return_book b lib = (Raise KeyError, lib))
  ∧ (added ops (from_book b) →
       ∃ l lb, index lib !! from_book b = Some l ∧ heap lib !! l = Some lb
         ∧ return_book b lib
           = (Ret tt,
              mkLibrary
                (<[l := mkLibraryBook (book lb) (qty lb) (available_qty lb + 1)]> (heap lib))
                (library_books lib) (index lib))).
Proof.
  intros lib. pose proof (consistent_run ops _ consistent_init) as Hc. fold lib in Hc.
  pose proof (indexed_iff_added ops (from_book b)) as Hadd. fold lib in Hadd. split.
  - intros Hno. apply return_book_untracked.
    destruct (index lib !! from_book b) as [l|] eqn:Hk; [|done].
    destruct Hno. apply Hadd. eauto.
  - intros [l Hk]%Hadd. destruct (index_keyed _ Hc _ _ Hk) as (lb & Hl & _).
    exists l, lb. split_and!; [done..|]. by apply return_book_tracked.
Qed.

Lemma return_book_spec_witness :
  return_book Sherlock (run [Add LOTR] Library_init)
  = (Raise KeyError, run [Add LOTR] Library_init).
Proof.
  apply (proj1 (return_book_spec [Add LOTR] Sherlock)).
  intros (b & Hin & Hb). apply list_elem_of_singleton in Hin. injection Hin as ->.
  discriminate Hb.
Defined.

(** * Checking out and returning, together *)

(** C7: for an identity with a single copy on the shelf, as it is after being
    added once, a first [checkout] returns the book, a second one right after
    returns [None]; and in [checkout], [return_book], [checkout] all three
    calls succeed: the return puts the library back as it was before the
    first checkout, so the second checkout finds the copy again. *)
Theorem single_copy_checkouts (lib : Library) (t a : string) (l : loc)
    (lb : LibraryBook) (b : Book) :
  index lib !! mkBookKey t a = Some l →
  heap lib !! l = Some lb →
  available_qty lb = 1%Z →
  from_book b = mkBookKey t a →
  ∃ lib1 lib2 lib3,
    checkout t a lib = (Ret (Some (book lb)), lib1)
    ∧ checkout t a lib1 = (Ret None, lib1)
    ∧ return_book b lib1 = (Ret tt, lib2)
    ∧ checkout t a lib2 = (Ret (Some (book lb)), lib3)
    ∧ lib2 = lib.
Proof.
  intros Hk Hl Hone Hb. pose proof (lookup_lt_Some _ _ _ Hl) as Hlt.
  assert (Hz : available_qty lb ≠ 0%Z) by lia.
  pose proof (checkout_available _ _ _ _ _ Hk Hl Hz) as Hout.
  replace (available_qty lb - 1)%Z with 0%Z in Hout by lia.
  set (lb0 := with_available_qty 0 lb) in *.
  set (lib1 := with_heap (<[l := lb0]> (heap lib)) lib) in *.
  assert (Hk1 : index lib1 !! mkBookKey t a = Some l) by done.
  assert (Hl1 : heap lib1 !! l = Some lb0).
  { cbn. by apply list_lookup_insert_eq. }
  exists lib1, lib, lib1. split_and!; [done| | |done|done].
  - by apply (checkout_exhausted _ _ _ l lb0).
  - rewrite <- Hb in Hk1. rewrite (return_book_tracked _ _ l lb0) by done.
    f_equal. unfold lib1, with_heap. cbn.
    rewrite list_insert_insert_eq.
    replace (with_available_qty (0 + 1) lb0) with lb
      by (destruct lb; cbn in *; by subst).
    rewrite list_insert_id by done. by destruct lib.
Qed.

Lemma single_copy_checkouts_witness :
  ∃ lib1 lib2 lib3,
    checkout "LOTR" "Tolkien" (run [Add LOTR] Library_init) = (Ret (Some LOTR), lib1)
    ∧ checkout "LOTR" "Tolkien" lib1 = (Ret None, lib1)
    ∧ return_book LOTR lib1 = (Ret tt, lib2)
    ∧ checkout "LOTR" "Tolkien" lib2 = (Ret (Some LOTR), lib3)
    ∧ lib2 = run [Add LOTR] Library_init.
Proof.
  apply (single_copy_checkouts (run [Add LOTR] Library_init) "LOTR" "Tolkien" 0
           (mkLibraryBook LOTR 1 1) LOTR); reflexivity.
Defined.

(** A call changed the record of the identity [k] in its [available_qty], by
    [d], and nothing else in the library. *)
Definition only_available_changed (lib lib' : Library) (k : BookKey) (d : Z) : Prop :=
  library_books lib' = library_books lib
  ∧ index lib' = index lib
  ∧ length (heap lib') = length (heap lib)
  ∧ ∃ l lb lb',
      index lib !! k = Some l ∧ heap lib !! l = Some lb ∧ heap lib' !! l = Some lb'
      ∧ book lb' = book lb ∧ qty lb' = qty lb
      ∧ available_qty lb' = (available_qty lb + d)%Z
      ∧ ∀ l', l' ≠ l → heap lib' !! l' = heap lib !! l'.

Lemma overwrite_only_available lib k l lb d :
  index lib !! k = Some l →
  heap lib !! l = Some lb →
  only_available_changed lib
    (with_heap (<[l := with_available_qty (available_qty lb + d) lb]> (heap lib)) lib) k d.
Proof.
  intros Hk Hl. pose proof (lookup_lt_Some _ _ _ Hl) as Hlt.
  split_and!; cbn; [done|done|by rewrite length_insert|].
  eexists l, lb, _. split_and!; [done|done|by apply list_lookup_insert_eq|done..|].
  intros l' Hne. by apply list_lookup_insert_ne.
Qed.

Lemma checkout_inv lib t a bk lib' :
  checkout t a lib = (Ret (Some bk), lib') →
  ∃ l lb, index lib !! mkBookKey t a = Some l ∧ heap lib !! l = Some lb
    ∧ bk = book lb
    ∧ lib' = with_heap (<[l := with_available_qty (available_qty lb - 1) lb]> (heap lib)) lib.
Proof.
  destruct (index lib !! mkBookKey t a) as [l|] eqn:Hk.
  - destruct (heap lib !! l) as [lb|] eqn:Hl.
    + destruct (decide (available_qty lb = 0%Z)) as [Hz|Hz].
      * by rewrite (checkout_exhausted _ _ _ _ _ Hk Hl Hz).
      * rewrite (checkout_available _ _ _ _ _ Hk Hl Hz). intros [= <- <-]. eauto 6.
    + unfold checkout, bind, index_get, gets, getattr. by rewrite Hk, Hl.
  - by rewrite (checkout_absent _ _ _ Hk).
Qed.

Lemma return_book_inv lib b lib' :
  return_book b lib = (Ret tt, lib') →
  ∃ l lb, index lib !! from_book b = Some l ∧ heap lib !! l = Some lb
    ∧ lib' = with_heap (<[l := with_available_qty (available_qty lb + 1) lb]> (heap lib)) lib.
Proof.
  destruct (index lib !! from_book b) as [l|] eqn:Hk.
  - destruct (heap lib !! l) as [lb|] eqn:Hl.
    + rewrite (return_book_tracked _ _ _ _ Hk Hl). intros [= <-]. eauto.
    + unfold return_book, bind, index_getitem, getattr. fold (from_book b).
      by rewrite Hk, Hl.
  - by rewrite (return_book_untracked _ _ Hk).
Qed.

(** C10: a [checkout] that returns a book and a [return_book] that returns
    change one thing, the [available_qty] of the record of the identity they
    were called with (by -1 and by +1): that record keeps its book and its
    [qty], every other object is as before, and so are the sequence and the
    index. *)
Theorem checkout_return_frame (lib lib' : Library) :
  (∀ t a bk, checkout t a lib = (Ret (Some bk), lib') →
     only_available_changed lib lib' (mkBookKey t a) (-1))
  ∧ (∀ b, return_book b lib = (Ret tt, lib') →
       only_available_changed lib lib' (from_book b) 1).
Proof.
  split.
  - intros t a bk (l & lb & Hk & Hl & _ & ->)%checkout_inv.
    by apply (overwrite_only_available _ _ _ _ (-1)).
  - intros b (l & lb & Hk & Hl & ->)%return_book_inv.
    by apply overwrite_only_available.
Qed.

Lemma checkout_return_frame_witness :
  only_available_changed
    (run (Add <$> test_books) Library_init)
    (snd (checkout "Sherlock" "Conan-Doyle" (run (Add <$> test_books) Library_init)))
    (mkBookKey "Sherlock" "Conan-Doyle") (-1).
Proof.
  apply (proj1 (checkout_return_frame _ _) "Sherlock" "Conan-Doyle" Sherlock).
  reflexivity.
Defined.

(** * Sequence and index *)

(** C8: in every library a client can hold, sequence and index pair up by
    identity.  Every record of the sequence is in the index under its own
    identity and under no other key, and the entry holds that very object;
    every entry of the index holds an object of the sequence; the sequence
    holds no object twice, and no two of its records have the same identity. *)
Theorem sequence_index_bijection (lib : Library) :
  reachable lib →
  (∀ l, l ∈ library_books lib →
     ∃ lb, heap lib !! l = Some lb
       ∧ index lib !! from_book (book lb) = Some l
       ∧ ∀ k, index lib !! k = Some l → k = from_book (book lb))
  ∧ (∀ k l, index lib !! k = Some l → l ∈ library_books lib)
  ∧ NoDup (library_books lib)
  ∧ (∀ i j l1 l2 lb1 lb2,
       library_books lib !! i = Some l1 → library_books lib !! j = Some l2 →
       heap lib !! l1 = Some lb1 → heap lib !! l2 = Some lb2 →
       from_book (book lb1) = from_book (book lb2) → i = j).
Proof.
  intros Hc%reachable_consistent. split_and!.
  - intros l Hin. destruct (books_indexed _ Hc _ Hin) as (lb & Hl & Hk).
    exists lb. split_and!; [done..|]. intros k Hk'.
    destruct (index_keyed _ Hc _ _ Hk') as (lb' & Hl' & <-). congruence.
  - apply (index_in_books _ Hc).
  - apply (books_NoDup _ Hc).
  - intros i j l1 l2 lb1 lb2 Hi Hj Hl1 Hl2 Hkey.
    destruct (books_indexed _ Hc l1) as (x1 & Hx1 & Hk1); [by eapply list_elem_of_lookup_2|].
    destruct (books_indexed _ Hc l2) as (x2 & Hx2 & Hk2); [by eapply list_elem_of_lookup_2|].
    assert (l1 = l2) as -> by congruence.
    by apply (NoDup_lookup _ _ _ l2 (books_NoDup _ Hc)).
Qed.

Lemma sequence_index_bijection_witness :
  NoDup (library_books (run (Add <$> test_books ++ test_books) Library_init)).
Proof.
  assert (Hr : reachable (run (Add <$> test_books ++ test_books) Library_init))
    by (by eexists).
  exact (proj1 (proj2 (proj2 (sequence_index_bijection _ Hr)))).
Defined.

(** * The counters *)

(** The record of [b] has a copy checked out. *)
Definition copy_is_out (lib : Library) (b : Book) : bool :=
  match index lib !! from_book b with
  | Some l =>
      match heap lib !! l with
      | Some lb => bool_decide (available_qty lb < qty lb)%Z
      | None => false
      end
  | None => false
  end.

(** Every [return_book] call of [ops], run from [lib], gives back a copy
    that is checked out at that moment. *)
Fixpoint returns_covered (ops : list op) (lib : Library) : bool :=
  match ops with
  | [] => true
  | o :: ops' =>
      match o with
      | Return b => copy_is_out lib b
      | _ => true
      end && returns_covered ops' (exec o lib)
  end.

(** No record has more copies on the shelf than it has copies. *)
Definition capped (lib : Library) : Prop :=
  ∀ l lb, heap lib !! l = Some lb → (available_qty lb ≤ qty lb)%Z.

Lemma capped_overwrite lib l lb lb' :
  capped lib →
  heap lib !! l = Some lb →
  (available_qty lb' ≤ qty lb')%Z →
  capped (with_heap (<[l := lb']> (heap lib)) lib).
Proof.
  intros Hcap Hl Hle l' x Hx. cbn in Hx.
  destruct (lookup_overwritten _ _ _ _ _ _ Hl Hx) as [[_ ->]|[_ Hx']]; eauto.
Qed.

Lemma capped_exec lib o :
  consistent lib → capped lib →
  match o with Return b => copy_is_out lib b = true | _ => True end →
  capped (exec o lib).
Proof.
  intros Hc Hcap Hcov. destruct o as [b|t a|b]; unfold exec.
  - destruct (index lib !! from_book b) as [l|] eqn:Hk.
    + destruct (index_keyed _ Hc _ _ Hk) as (lb & Hl & _).
      rewrite (add_book_present _ _ _ _ Hk Hl). cbn [snd].
      apply (capped_overwrite _ _ lb); [done..|]. cbn. specialize (Hcap _ _ Hl). lia.
    + rewrite (add_book_absent _ _ Hk). cbn [snd]. intros l x Hx. cbn in Hx.
      apply lookup_app_Some in Hx as [Hx|[_ Hx]]; [eauto|].
      apply list_lookup_singleton_Some in Hx as [_ <-]. done.
  - destruct (index lib !! mkBookKey t a) as [l|] eqn:Hk.
    + destruct (index_keyed _ Hc _ _ Hk) as (lb & Hl & _).
      destruct (decide (available_qty lb = 0%Z)) as [Hz|Hz].
      * by rewrite (checkout_exhausted _ _ _ _ _ Hk Hl Hz).
      * rewrite (checkout_available _ _ _ _ _ Hk Hl Hz). cbn [snd].
        apply (capped_overwrite _ _ lb); [done..|]. cbn. specialize (Hcap _ _ Hl). lia.
    + by rewrite (checkout_absent _ _ _ Hk).
  - unfold copy_is_out in Hcov.
    destruct (index lib !! from_book b) as [l|] eqn:Hk; [|done].
    destruct (heap lib !! l) as [lb|] eqn:Hl; [|done].
    apply bool_decide_eq_true in Hcov.
    rewrite (return_book_tracked _ _ _ _ Hk Hl). cbn [snd].
    apply (capped_overwrite _ _ lb); [done..|]. cbn. lia.
Qed.

Lemma capped_run ops : ∀ lib,
  consistent lib → capped lib → returns_covered ops lib = true →
  capped (run ops lib).
Proof.
  induction ops as [|o ops IH]; intros lib Hc Hcap Hcov; [done|].
  cbn in Hcov. apply andb_true_iff in Hcov as [Ho Hops]. cbn. apply IH.
  - by apply consistent_exec.
  - apply capped_exec; [done..|]. by destruct o.
  - done.
Qed.

(** C2, as the code has it: in every library built by add, checkout and
    return calls, every record has [0 ≤ available_qty] and [1 ≤ qty].
    [available_qty ≤ qty] holds as well when every [return_book] call gave
    back a copy that was checked out; [return_book] itself does not compare
    the two counters. *)
Theorem counts_in_range (ops : list op) (l : loc) (lb : LibraryBook) :
  heap (run ops Library_init) !! l = Some lb →
  (0 ≤ available_qty lb)%Z ∧ (1 ≤ qty lb)%Z
  ∧ (returns_covered ops Library_init = true → (available_qty lb ≤ qty lb)%Z).
Proof.
  intros Hl. pose proof (consistent_run ops _ consistent_init) as Hc.
  destruct (counts_positive _ Hc _ _ Hl). split_and!; [done..|].
  intros Hcov. apply (capped_run ops Library_init consistent_init) in Hcov.
  - by apply (Hcov l).
  - intros l' x Hx. cbn in Hx. by rewrite lookup_nil in Hx.
Qed.

Lemma counts_in_range_witness :
  (0 ≤ 1)%Z ∧ (1 ≤ 2)%Z
  ∧ (returns_covered [Add LOTR; Add LOTR; Checkout "LOTR" "Tolkien";
                      Checkout "LOTR" "Tolkien"; Return LOTR] Library_init = true
     → (1 ≤ 2)%Z).
Proof.
  apply (counts_in_range [Add LOTR; Add LOTR; Checkout "LOTR" "Tolkien";
                          Checkout "LOTR" "Tolkien"; Return LOTR]
           0 (mkLibraryBook LOTR 2 1)).
  reflexivity.
Defined.

(** C2, as stated, fails: returning a book that is not checked out leaves its
    record with more copies on the shelf than it has copies. *)
Lemma return_without_checkout_exceeds_qty :
  reachable (run [Add LOTR; Return LOTR] Library_init)
  ∧ heap (run [Add LOTR; Return LOTR] Library_init) !! 0 = Some (mkLibraryBook LOTR 1 2)
  ∧ ¬ (0 ≤ available_qty (mkLibraryBook LOTR 1 2) ≤ qty (mkLibraryBook LOTR 1 2))%Z.
Proof.
  split_and!.
  - by eexists.
  - reflexivity.
  - cbn. lia.
Qed.

(** * Enumeration *)

Lemma copies_left_0 lib l : copies_left lib l 0 = on_shelf lib l.
Proof.
  unfold copies_left, on_shelf. destruct (heap lib !! l); [|done].
  by rewrite Z.sub_0_r.
Qed.

Lemma expand_available_copies lib : expand lib (library_books lib) = available_copies lib.
Proof.
  unfold expand, available_copies. induction (library_books lib) as [|l ls IH]; [done|].
  cbn. by rewrite copies_left_0, IH.
Qed.

(** [list(lib)] on a consistent library. *)
Lemma collect_consistent lib m :
  consistent lib →
  length (available_copies lib) < m →
  collect m lib (__iter__ lib) = Some (Ret (available_copies lib)).
Proof.
  intros Hc Hm. rewrite <- expand_available_copies in Hm |- *.
  by apply (collect_pending lib m (__iter__ lib) (iter_ok_start _ Hc)).
Qed.

Section Occurrences.
Variable f : loc → nat.

Lemma filter_replicate_other (l l' : loc) n :
  l' ≠ l → filter (λ x, x = l) (replicate n l') = [].
Proof.
  intros Hne. induction n as [|n IH]; [done|]. cbn [replicate].
  by rewrite filter_cons_False.
Qed.

Lemma filter_replicate_same (l : loc) n :
  filter (λ x, x = l) (replicate n l) = replicate n l.
Proof.
  induction n as [|n IH]; [done|]. cbn [replicate].
  by rewrite filter_cons_True, IH.
Qed.

Lemma occurrences_absent (ls : list loc) l :
  l ∉ ls → filter (λ x, x = l) (flat_map (λ l', replicate (f l') l') ls) = [].
Proof.
  induction ls as [|l' ls IH]; [done|]. intros Hnin. cbn [flat_map].
  apply not_elem_of_cons in Hnin as [Hne Hnin].
  rewrite filter_app, filter_replicate_other by done. by rewrite IH.
Qed.

(** A reference that is once in [ls] is [f l] times in the expansion. *)
Lemma occurrences_present (ls : list loc) l :
  NoDup ls → l ∈ ls →
  length (filter (λ x, x = l) (flat_map (λ l', replicate (f l') l') ls)) = f l.
Proof.
  induction 1 as [|l' ls Hnin Hnd IH]; intros Hin; [by apply elem_of_nil in Hin|].
  cbn [flat_map]. rewrite filter_app, length_app.
  destruct (decide (l' = l)) as [->|Hne].
  - rewrite filter_replicate_same, length_replicate, occurrences_absent by done.
    cbn. lia.
  - apply elem_of_cons in Hin as [->|Hin]; [done|].
    rewrite filter_replicate_other by done. cbn. by apply IH.
Qed.
End Occurrences.

(** C1: iterating a library built by add, checkout and return calls ends and
    produces [available_copies]: the records of the sequence in sequence
    order, each repeated in one block, once per copy on the shelf, and
    nothing else.  The sequence lists the identities in the order in which
    they were first added.  So every record is produced exactly
    [available_qty] times, and a record with [available_qty = 0] not at all,
    wherever it stands in the sequence. *)
Theorem iteration_yields_available_copies (ops : list op) :
  let lib := run ops Library_init in
  (∃ n, ∀ m, n ≤ m →
     collect m lib (__iter__ lib) = Some (Ret (available_copies lib)))
  ∧ sequence_keys lib = Some <$> first_adds ops
  ∧ NoDup (library_books lib)
  ∧ (∀ l lb, heap lib !! l = Some lb →
       l ∈ library_books lib
       ∧ (0 ≤ available_qty lb)%Z
       ∧ length (filter (λ x, x = l) (available_copies lib)) = Z.to_nat (available_qty lb)
       ∧ (available_qty lb = 0%Z → l ∉ available_copies lib)).
Proof.
  intros lib. pose proof (consistent_run ops _ consistent_init) as Hc. fold lib in Hc.
  split_and!.
  - exists (S (length (available_copies lib))). intros m Hm.
    apply collect_consistent; [done|lia].
  - apply sequence_keys_run.
  - apply (books_NoDup _ Hc).
  - intros l lb Hl.
    pose proof (heap_in_books _ Hc _ _ Hl) as Hin.
    destruct (counts_positive _ Hc _ _ Hl) as [Hnn _].
    assert (Hocc : length (filter (λ x, x = l) (available_copies lib))
                   = Z.to_nat (available_qty lb)).
    { unfold available_copies.
      rewrite (occurrences_present (on_shelf lib)) by (done || apply (books_NoDup _ Hc)).
      unfold on_shelf. by rewrite Hl. }
    split_and!; [done..|].
    intros Hz Hout. rewrite Hz in Hocc. cbn in Hocc.
    apply length_zero_iff_nil in Hocc.
    assert (Hf : l ∈ filter (λ x, x = l) (available_copies lib))
      by (by apply list_elem_of_filter).
    rewrite Hocc in Hf. by apply elem_of_nil in Hf.
Qed.

(** C6: on every library, iterating ends: from some number of calls of
    [__next__] on, [list(lib)] has a result, and always the same.  On a library
    a client can hold the result is a list with as many values as the
    [available_qty] of the sequence's records add up to. *)
Theorem iteration_terminates (lib : Library) :
  (∃ n r, ∀ m, n ≤ m → collect m lib (__iter__ lib) = Some r)
  ∧ (reachable lib →
       ∃ n out, (∀ m, n ≤ m → collect m lib (__iter__ lib) = Some (Ret out))
         ∧ Z.of_nat (length out) = total_available lib).
Proof.
  split.
  - destruct (collect_total lib (S (calls_bound lib (__iter__ lib))) (__iter__ lib))
      as [r Hr]; [lia|].
    eexists _, r. intros m Hm. by apply (collect_more lib _ _ _ _ Hr).
  - intros Hc%reachable_consistent.
    exists (S (length (available_copies lib))), (available_copies lib). split.
    + intros m Hm. apply collect_consistent; [done|lia].
    + rewrite <- expand_available_copies.
      apply length_expand. by apply consistent_stocked.
Qed.

Lemma iteration_terminates_witness :
  ∃ n out,
    (∀ m, n ≤ m →
       collect m (run (Add <$> test_books ++ test_books) Library_init)
         (__iter__ (run (Add <$> test_books ++ test_books) Library_init))
       = Some (Ret out))
    ∧ Z.of_nat (length out)
      = total_available (run (Add <$> test_books ++ test_books) Library_init).
Proof.
  apply (proj2 (iteration_terminates (run (Add <$> test_books ++ test_books) Library_init))).
  by eexists.
Defined.

(** * One identity at a time *)

(** The record the index holds for the identity [k], if any. *)
Definition record_of (lib : Library) (k : BookKey) : option LibraryBook :=
  match index lib !! k with
  | Some l => heap lib !! l
  | None => None
  end.

(** The identity a call is made with. *)
Definition op_key (o : op) : BookKey :=
  match o with
  | Add b => from_book b
  | Checkout t a => mkBookKey t a
  | Return b => from_book b
  end.

(** What a call does to the record of its own identity. *)
Definition on_record (o : op) (r : option LibraryBook) : option LibraryBook :=
  match o, r with
  | Add b, None => Some (mkLibraryBook b 1 1)
  | Add _, Some lb => Some (added_copy lb)
  | Checkout _ _, Some lb =>
      if (available_qty lb =? 0)%Z then Some lb
      else Some (with_available_qty (available_qty lb - 1) lb)
  | Return _, Some lb => Some (with_available_qty (available_qty lb + 1) lb)
  | _, None => None
  end.

(** The calls of [ops] with the identity [k], applied in turn to [r]. *)
Definition replay (k : BookKey) (r : option LibraryBook) (ops : list op)
  : option LibraryBook :=
  foldl (λ r o, if decide (op_key o = k) then on_record o r else r) r ops.

(** The calls of [ops] made with the identity [k]. *)
Definition calls_with (k : BookKey) (ops : list op) : list op :=
  filter (λ o, op_key o = k) ops.

(** The book of the first [add_book] call of [ops] with the identity [k]. *)
Fixpoint first_book (k : BookKey) (ops : list op) : option Book :=
  match ops with
  | [] => None
  | Add b :: ops' => if decide (from_book b = k) then Some b else first_book k ops'
  | _ :: ops' => first_book k ops'
  end.

(** The number of [add_book] calls of [ops] with the identity [k]. *)
Fixpoint count_adds (k : BookKey) (ops : list op) : nat :=
  match ops with
  | [] => O
  | Add b :: ops' => (if decide (from_book b = k) then 1 else 0) + count_adds k ops'
  | _ :: ops' => count_adds k ops'
  end.

Section PerIdentity.
Implicit Types (lib : Library) (b : Book) (l : loc) (lb : LibraryBook) (k : BookKey).

(** The index never holds one object under two keys. *)
Lemma index_injective lib k k' l :
  consistent lib → index lib !! k = Some l → index lib !! k' = Some l → k = k'.
Proof.
  intros Hc Hk Hk'.
  destruct (index_keyed _ Hc _ _ Hk) as (x & Hx & <-).
  destruct (index_keyed _ Hc _ _ Hk') as (x' & Hx' & <-). congruence.
Qed.

Lemma record_of_overwrite lib k0 l0 lb0 lb' k :
  consistent lib →
  index lib !! k0 = Some l0 → heap lib !! l0 = Some lb0 →
  record_of (with_heap (<[l0 := lb']> (heap lib)) lib) k
  = if decide (k0 = k) then Some lb' else record_of lib k.
Proof.
  intros Hc Hk0 Hl0. pose proof (lookup_lt_Some _ _ _ Hl0) as Hlt.
  unfold record_of. cbn. case_decide as Heq.
  - subst k. rewrite Hk0. by apply list_lookup_insert_eq.
  - destruct (index lib !! k) as [l|] eqn:Hk; [|done].
    apply list_lookup_insert_ne. intros ->. destruct Heq.
    by apply (index_injective lib _ _ l).
Qed.

Lemma record_of_new_record lib b k :
  consistent lib →
  record_of (with_new_record b lib) k
  = if decide (from_book b = k) then Some (mkLibraryBook b 1 1) else record_of lib k.
Proof.
  intros Hc. unfold record_of. cbn. rewrite lookup_insert. case_decide as Heq.
  - by rewrite lookup_app_r, Nat.sub_diag.
  - destruct (index lib !! k) as [l|] eqn:Hk; [|done].
    destruct (index_keyed _ Hc _ _ Hk) as (x & Hx & _).
    by rewrite (lookup_app_l_Some _ _ _ _ Hx).
Qed.

(** A call changes the record of its own identity, as [on_record] says, and
    no other. *)
Lemma record_of_exec lib o k :
  consistent lib →
  record_of (exec o lib) k
  = if decide (op_key o = k) then on_record o (record_of lib k) else record_of lib k.
Proof.
  intros Hc. destruct o as [b|t a|b]; unfold exec, op_key.
  - destruct (index lib !! from_book b) as [l|] eqn:Hk.
    + destruct (index_keyed _ Hc _ _ Hk) as (lb & Hl & _).
      rewrite (add_book_present _ _ _ _ Hk Hl). cbn [snd].
      rewrite (record_of_overwrite _ (from_book b) l lb) by done.
      case_decide as Heq; [|done]. subst k. unfold record_of. by rewrite Hk, Hl.
    + rewrite (add_book_absent _ _ Hk). cbn [snd].
      rewrite record_of_new_record by done.
      case_decide as Heq; [|done]. subst k. unfold record_of. by rewrite Hk.
  - destruct (index lib !! mkBookKey t a) as [l|] eqn:Hk.
    + destruct (index_keyed _ Hc _ _ Hk) as (lb & Hl & _).
      destruct (decide (available_qty lb = 0%Z)) as [Hz|Hz].
      * rewrite (checkout_exhausted _ _ _ _ _ Hk Hl Hz). cbn [snd].
        case_decide as Heq; [|done]. subst k. unfold record_of. rewrite Hk, Hl. cbn.
        by rewrite Hz.
      * rewrite (checkout_available _ _ _ _ _ Hk Hl Hz). cbn [snd].
        rewrite (record_of_overwrite _ (mkBookKey t a) l lb) by done.
        case_decide as Heq; [|done]. subst k. unfold record_of. rewrite Hk, Hl. cbn.
        by rewrite (proj2 (Z.eqb_neq _ _) Hz).
    + rewrite (checkout_absent _ _ _ Hk). cbn [snd].
      case_decide as Heq; [|done]. subst k. unfold record_of. by rewrite Hk.
  - destruct (index lib !! from_book b) as [l|] eqn:Hk.
    + destruct (index_keyed _ Hc _ _ Hk) as (lb & Hl & _).
      rewrite (return_book_tracked _ _ _ _ Hk Hl). cbn [snd].
      rewrite (record_of_overwrite _ (from_book b) l lb) by done.
      case_decide as Heq; [|done]. subst k. unfold record_of. by rewrite Hk, Hl.
    + rewrite (return_book_untracked _ _ Hk). cbn [snd].
      case_decide as Heq; [|done]. subst k. unfold record_of. by rewrite Hk.
Qed.

Lemma record_of_run ops : ∀ lib k,
  consistent lib → record_of (run ops lib) k = replay k (record_of lib k) ops.
Proof.
  induction ops as [|o ops IH]; intros lib k Hc; [done|].
  change (run (o :: ops) lib) with (run ops (exec o lib)).
  rewrite IH by (by apply consistent_exec). by rewrite record_of_exec.
Qed.

Lemma record_of_run_init ops k :
  record_of (run ops Library_init) k = replay k None ops.
Proof. by rewrite record_of_run by apply consistent_init. Qed.

Lemma replay_calls_with k ops : ∀ r, replay k r (calls_with k ops) = replay k r ops.
Proof.
  unfold calls_with, replay. induction ops as [|o ops IH]; intros r; [done|].
  destruct (decide (op_key o = k)) as [Heq|Hne].
  - rewrite filter_cons_True by done. cbn [foldl]. by rewrite IH.
  - rewrite filter_cons_False by done. cbn [foldl]. rewrite IH. by rewrite decide_False.
Qed.

Lemma replay_cons k r o ops :
  replay k r (o :: ops)
  = replay k (if decide (op_key o = k) then on_record o r else r) ops.
Proof. reflexivity. Qed.

Lemma on_record_book o lb :
  ∃ lb', on_record o (Some lb) = Some lb' ∧ book lb' = book lb
    ∧ qty lb' = (qty lb + match o with Add _ => 1 | _ => 0 end)%Z.
Proof.
  destruct o as [b|t a|b]; cbn.
  - eexists. split; [done|]. by cbn.
  - destruct (available_qty lb =? 0)%Z; eexists; (split; [done|]); cbn; split; [done|lia| done|lia].
  - eexists. split; [done|]. cbn. split; [done|lia].
Qed.

Lemma replay_Some k ops : ∀ lb,
  ∃ lb', replay k (Some lb) ops = Some lb' ∧ book lb' = book lb
    ∧ qty lb' = (qty lb + Z.of_nat (count_adds k ops))%Z.
Proof.
  induction ops as [|o ops IH]; intros lb.
  - exists lb. cbn. split_and!; [done..|lia].
  - rewrite replay_cons. destruct (decide (op_key o = k)) as [Heq|Hne].
    + destruct (on_record_book o lb) as (lb1 & -> & Hb1 & Hq1).
      destruct (IH lb1) as (lb' & -> & Hb' & Hq'). exists lb'.
      split_and!; [done|congruence|]. rewrite Hq', Hq1.
      destruct o as [b|t a|b]; cbn [count_adds]; [|lia..].
      cbn in Heq. rewrite decide_True by done. lia.
    + destruct (IH lb) as (lb' & -> & Hb' & Hq'). exists lb'.
      split_and!; [done..|]. rewrite Hq'.
      destruct o as [b|t a|b]; cbn [count_adds]; [|lia..].
      cbn in Hne. rewrite decide_False by done. lia.
Qed.

Lemma replay_None k ops :
  match replay k None ops with
  | Some lb => first_book k ops = Some (book lb) ∧ qty lb = Z.of_nat (count_adds k ops)
  | None => first_book k ops = None ∧ count_adds k ops = O
  end.
Proof.
  induction ops as [|o ops IH]; [done|].
  rewrite replay_cons. destruct (decide (op_key o = k)) as [Heq|Hne].
  - destruct o as [b|t a|b]; cbn [on_record first_book count_adds]; [|done..].
    cbn in Heq. rewrite !decide_True by done.
    destruct (replay_Some k ops (mkLibraryBook b 1 1)) as (lb' & -> & Hb' & Hq').
    cbn in Hb', Hq'. split; [congruence|lia].
  - destruct o as [b|t a|b]; cbn [first_book count_adds]; [|done..].
    cbn in Hne. by rewrite !decide_False by done.
Qed.
End PerIdentity.

(** X1: the record of an identity is what the calls made with that identity
    produce on their own: leaving out every call with another identity
    gives the same record, present or not, with the same book and counters. *)
Theorem record_depends_on_own_calls (ops : list op) (k : BookKey) :
  record_of (run ops Library_init) k
  = record_of (run (calls_with k ops) Library_init) k.
Proof.
  by rewrite !record_of_run_init, replay_calls_with.
Qed.

(** X2: [qty] counts the [add_book] calls made with the identity; no
    [checkout] or [return_book] call changes it, and an identity has a
    record exactly when that count is not 0. *)
Theorem qty_counts_adds (ops : list op) (k : BookKey) :
  qty <$> record_of (run ops Library_init) k
  = if decide (count_adds k ops = O) then None
    else Some (Z.of_nat (count_adds k ops)).
Proof.
  pose proof (consistent_run ops _ consistent_init) as Hc.
  pose proof (replay_None k ops) as Hn. rewrite <- record_of_run_init in Hn.
  unfold record_of in *.
  destruct (index (run ops Library_init) !! k) as [l|]; cbn.
  - destruct (heap (run ops Library_init) !! l) as [lb|] eqn:Hl; cbn.
    + destruct Hn as [_ Hq]. destruct (counts_positive _ Hc _ _ Hl) as [_ Hpos].
      rewrite decide_False by lia. by rewrite Hq.
    + destruct Hn as [_ ->]. done.
  - destruct Hn as [_ ->]. done.
Qed.



(** * Round trips *)

Lemma overwrite_back lib l lb lb1 :
  heap lib !! l = Some lb →
  with_heap (<[l := lb]> (heap (with_heap (<[l := lb1]> (heap lib)) lib)))
            (with_heap (<[l := lb1]> (heap lib)) lib)
  = lib.
Proof.
  intros Hl. unfold with_heap. cbn. rewrite list_insert_insert_eq.
  rewrite list_insert_id by done. by destruct lib.
Qed.

(** X4: giving back the book a [checkout] handed out undoes the checkout:
    [return_book] returns and the library is exactly as it was before. *)
Theorem return_undoes_checkout (lib lib' : Library) (t a : string) (bk : Book) :
  reachable lib →
  checkout t a lib = (Ret (Some bk), lib') →
  return_book bk lib' = (Ret tt, lib).
Proof.
  intros Hc%reachable_consistent (l & lb & Hk & Hl & -> & ->)%checkout_inv.
  pose proof (lookup_lt_Some _ _ _ Hl) as Hlt.
  destruct (index_keyed _ Hc _ _ Hk) as (x & Hx & Hkey).
  assert (x = lb) as -> by congruence.
  set (lb1 := with_available_qty (available_qty lb - 1) lb).
  rewrite (return_book_tracked _ _ l lb1).
  - f_equal. replace (with_available_qty (available_qty lb1 + 1) lb1) with lb.
    + by apply overwrite_back.
    + destruct lb as [bk q av]. unfold lb1, with_available_qty. cbn. f_equal. lia.
  - cbn. by rewrite Hkey.
  - cbn. by apply list_lookup_insert_eq.
Qed.

Lemma return_undoes_checkout_witness :
  return_book Sherlock (snd (checkout "Sherlock" "Conan-Doyle"
                               (run (Add <$> test_books) Library_init)))
  = (Ret tt, run (Add <$> test_books) Library_init).
Proof.
  apply (return_undoes_checkout (run (Add <$> test_books) Library_init) _
           "Sherlock" "Conan-Doyle" Sherlock).
  - by eexists.
  - reflexivity.
Defined.

(** X5: a [checkout] right after a [return_book] that returned takes the
    copy out again: it hands out the record's book, which has the identity of
    the returned one, and the library is exactly as it was before the
    return. *)
Theorem checkout_undoes_return (lib lib' : Library) (b : Book) :
  reachable lib →
  return_book b lib = (Ret tt, lib') →
  ∃ bk, checkout (title b) (author b) lib' = (Ret (Some bk), lib)
    ∧ from_book bk = from_book b.
Proof.
  intros Hc%reachable_consistent (l & lb & Hk & Hl & ->)%return_book_inv.
  pose proof (lookup_lt_Some _ _ _ Hl) as Hlt.
  destruct (index_keyed _ Hc _ _ Hk) as (x & Hx & Hkey).
  assert (x = lb) as -> by congruence.
  destruct (counts_positive _ Hc _ _ Hl) as [Hnn _].
  set (lb1 := with_available_qty (available_qty lb + 1) lb).
  exists (book lb). split; [|done].
  rewrite (checkout_available _ _ _ l lb1).
  - f_equal. replace (with_available_qty (available_qty lb1 - 1) lb1) with lb.
    + by apply overwrite_back.
    + destruct lb as [bk q av]. unfold lb1, with_available_qty. cbn. f_equal. lia.
  - done.
  - cbn. by apply list_lookup_insert_eq.
  - cbn. lia.
Qed.

Lemma checkout_undoes_return_witness :
  ∃ bk, checkout (title LOTR) (author LOTR)
          (snd (return_book LOTR (run [Add LOTR; Checkout "LOTR" "Tolkien"] Library_init)))
        = (Ret (Some bk), run [Add LOTR; Checkout "LOTR" "Tolkien"] Library_init)
    ∧ from_book bk = from_book LOTR.
Proof.
  apply (checkout_undoes_return (run [Add LOTR; Checkout "LOTR" "Tolkien"] Library_init)).
  - by eexists.
  - reflexivity.
Defined.

(** X6: a book that was just added can be checked out: after [add_book b],
    [checkout] with the title and author of [b] hands out a book of the same
    identity, in every library a client can hold. *)
Theorem checkout_after_add (lib : Library) (b : Book) :
  reachable lib →
  ∃ bk lib', checkout (title b) (author b) (exec (Add b) lib) = (Ret (Some bk), lib')
    ∧ from_book bk = from_book b.
Proof.
  intros Hc%reachable_consistent. unfold exec.
  destruct (index lib !! from_book b) as [l|] eqn:Hk.
  - destruct (index_keyed _ Hc _ _ Hk) as (lb & Hl & Hkey).
    pose proof (lookup_lt_Some _ _ _ Hl) as Hlt.
    destruct (counts_positive _ Hc _ _ Hl) as [Hnn _].
    rewrite (add_book_present _ _ _ _ Hk Hl). cbn [snd].
    eexists (book lb), _. split; [|done].
    apply (checkout_available _ _ _ l (added_copy lb)).
    + done.
    + cbn. by apply list_lookup_insert_eq.
    + cbn. lia.
  - rewrite (add_book_absent _ _ Hk). cbn [snd].
    eexists b, _. split; [|done].
    apply (checkout_available _ _ _ (length (heap lib)) (mkLibraryBook b 1 1)).
    + cbn. apply lookup_insert_eq.
    + cbn. by rewrite lookup_app_r, Nat.sub_diag.
    + done.
Qed.

Lemma checkout_after_add_witness :
  ∃ bk lib',
    checkout (title LOTR_paperback) (author LOTR_paperback)
      (exec (Add LOTR_paperback) (run [Add LOTR; Checkout "LOTR" "Tolkien"] Library_init))
    = (Ret (Some bk), lib')
    ∧ from_book bk = from_book LOTR_paperback.
Proof.
  apply (checkout_after_add (run [Add LOTR; Checkout "LOTR" "Tolkien"] Library_init)).
  by eexists.
Defined.

(** * Nothing is ever removed *)

(** [lib'] has everything [lib] has: the sequence of [lib] is the beginning
    of its sequence, the index entries of [lib] are entries of its index, and
    every object of [lib] is still there with the same book and a [qty] that
    is not smaller. *)
Definition extends (lib lib' : Library) : Prop :=
  library_books lib `prefix_of` library_books lib'
  ∧ (∀ k l, index lib !! k = Some l → index lib' !! k = Some l)
  ∧ (∀ l lb, heap lib !! l = Some lb →
       ∃ lb', heap lib' !! l = Some lb' ∧ book lb' = book lb ∧ (qty lb ≤ qty lb')%Z).

Lemma extends_refl lib : extends lib lib.
Proof. split_and!; [done..|]. intros l lb Hl. exists lb. split_and!; [done..|lia]. Qed.

Lemma extends_trans lib1 lib2 lib3 :
  extends lib1 lib2 → extends lib2 lib3 → extends lib1 lib3.
Proof.
  intros (Hp1 & Hi1 & Hh1) (Hp2 & Hi2 & Hh2). split_and!.
  - by etrans.
  - eauto.
  - intros l lb Hl. destruct (Hh1 _ _ Hl) as (lb2 & Hl2 & Hb2 & Hq2).
    destruct (Hh2 _ _ Hl2) as (lb3 & Hl3 & Hb3 & Hq3).
    exists lb3. split_and!; [done|congruence|lia].
Qed.

Lemma extends_overwrite lib l lb lb' :
  heap lib !! l = Some lb → book lb' = book lb → (qty lb ≤ qty lb')%Z →
  extends lib (with_heap (<[l := lb']> (heap lib)) lib).
Proof.
  intros Hl Hb Hq. pose proof (lookup_lt_Some _ _ _ Hl) as Hlt.
  split_and!; cbn; [done..|]. intros l' x Hx.
  destruct (decide (l = l')) as [<-|Hne].
  - exists lb'. rewrite list_lookup_insert_eq by done.
    assert (x = lb) as -> by congruence. done.
  - exists x. rewrite list_lookup_insert_ne by done. split_and!; [done..|lia].
Qed.

Lemma extends_exec lib o : consistent lib → extends lib (exec o lib).
Proof.
  intros Hc. destruct o as [b|t a|b]; unfold exec.
  - destruct (index lib !! from_book b) as [l|] eqn:Hk.
    + destruct (index_keyed _ Hc _ _ Hk) as (lb & Hl & _).
      rewrite (add_book_present _ _ _ _ Hk Hl). cbn [snd].
      apply (extends_overwrite _ _ lb); cbn; [done..|lia].
    + rewrite (add_book_absent _ _ Hk). cbn [snd]. split_and!; cbn.
      * by apply prefix_app_r.
      * intros k l Hkl. rewrite lookup_insert_ne; [done|]. congruence.
      * intros l x Hx. exists x. split_and!; [by apply lookup_app_l_Some|done|lia].
  - destruct (index lib !! mkBookKey t a) as [l|] eqn:Hk.
    + destruct (index_keyed _ Hc _ _ Hk) as (lb & Hl & _).
      destruct (decide (available_qty lb = 0%Z)) as [Hz|Hz].
      * rewrite (checkout_exhausted _ _ _ _ _ Hk Hl Hz). apply extends_refl.
      * rewrite (checkout_available _ _ _ _ _ Hk Hl Hz). cbn [snd].
        apply (extends_overwrite _ _ lb); cbn; [done..|lia].
    + rewrite (checkout_absent _ _ _ Hk). apply extends_refl.
  - destruct (index lib !! from_book b) as [l|] eqn:Hk.
    + destruct (index_keyed _ Hc _ _ Hk) as (lb & Hl & _).
      rewrite (return_book_tracked _ _ _ _ Hk Hl). cbn [snd].
      apply (extends_overwrite _ _ lb); cbn; [done..|lia].
    + rewrite (return_book_untracked _ _ Hk). apply extends_refl.
Qed.

(** X7: no call removes, moves or replaces anything.  Whatever calls follow,
    the sequence keeps its records in place and only grows at the end, an
    identity stays bound to the same record, and a record keeps its book and
    never loses copies from [qty]. *)
Theorem later_library_extends (lib : Library) (ops : list op) :
  reachable lib → extends lib (run ops lib).
Proof.
  intros Hc%reachable_consistent. revert lib Hc.
  induction ops as [|o ops IH]; intros lib Hc; [apply extends_refl|].
  change (run (o :: ops) lib) with (run ops (exec o lib)).
  apply (extends_trans _ (exec o lib)); [by apply extends_exec|].
  apply IH. by apply consistent_exec.
Qed.

Lemma later_library_extends_witness :
  extends (run [Add LOTR; Add Sherlock] Library_init)
          (run [Checkout "LOTR" "Tolkien"; Add Oliver_Twist; Add LOTR_paperback]
               (run [Add LOTR; Add Sherlock] Library_init)).
Proof.
  apply (later_library_extends (run [Add LOTR; Add Sherlock] Library_init)).
  by eexists.
Defined.

(** * What a call does to the enumeration *)


Section Shelf.
Implicit Types (lib : Library) (h : list LibraryBook) (l : loc) (ls : list loc).









End Shelf.






(** * Copies that are out *)

(** The copies of the identity [k] that are not on the shelf. *)
Definition copies_out (lib : Library) (k : BookKey) : Z :=
  match record_of lib k with
  | Some lb => (qty lb - available_qty lb)%Z
  | None => 0%Z
  end.

(** What the call [o], made on [lib], takes from the shelf of the identity
    [k]: 1 for a [checkout] that hands out a book, -1 for a [return_book] that
    returns, 0 for every other call and every call with another identity. *)
Definition taken (k : BookKey) (o : op) (lib : Library) : Z :=
  if decide (op_key o = k) then
    match o with
    | Add _ => 0%Z
    | Checkout t a =>
        match fst (checkout t a lib) with
        | Ret (Some _) => 1%Z
        | _ => 0%Z
        end
    | Return b =>
        match fst (return_book b lib) with
        | Ret _ => (-1)%Z
        | Raise _ => 0%Z
        end
    end
  else 0%Z.

Fixpoint net_taken (k : BookKey) (ops : list op) (lib : Library) : Z :=
  match ops with
  | [] => 0%Z
  | o :: ops' => (taken k o lib + net_taken k ops' (exec o lib))%Z
  end.

Lemma copies_out_exec lib o k :
  consistent lib →
  copies_out (exec o lib) k = (copies_out lib k + taken k o lib)%Z.
Proof.
  intros Hc. unfold copies_out, taken. rewrite record_of_exec by done.
  case_decide as Heq; [|destruct (record_of lib k); lia]. subst k.
  unfold record_of. destruct o as [b|t a|b]; cbn [op_key].
  - destruct (index lib !! from_book b) as [l|] eqn:Hk; [|cbn; lia].
    destruct (index_keyed _ Hc _ _ Hk) as (lb & Hl & _). rewrite Hl. cbn. lia.
  - destruct (index lib !! mkBookKey t a) as [l|] eqn:Hk.
    + destruct (index_keyed _ Hc _ _ Hk) as (lb & Hl & _). rewrite Hl. cbn [on_record].
      destruct (Z.eqb_spec (available_qty lb) 0) as [Hz|Hz].
      * rewrite (checkout_exhausted _ _ _ _ _ Hk Hl Hz). cbn. lia.
      * rewrite (checkout_available _ _ _ _ _ Hk Hl Hz). cbn. lia.
    + rewrite (checkout_absent _ _ _ Hk). cbn. lia.
  - destruct (index lib !! from_book b) as [l|] eqn:Hk.
    + destruct (index_keyed _ Hc _ _ Hk) as (lb & Hl & _). rewrite Hl.
      rewrite (return_book_tracked _ _ _ _ Hk Hl). cbn. lia.
    + rewrite (return_book_untracked _ _ Hk). cbn. lia.
Qed.

Lemma copies_out_run ops : ∀ lib k,
  consistent lib →
  copies_out (run ops lib) k = (copies_out lib k + net_taken k ops lib)%Z.
Proof.
  induction ops as [|o ops IH]; intros lib k Hc; [cbn; lia|].
  change (run (o :: ops) lib) with (run ops (exec o lib)).
  rewrite IH by (by apply consistent_exec). rewrite copies_out_exec by done.
  cbn [net_taken]. lia.
Qed.

(** X10: for every identity, [qty - available_qty] is the number of
    checkouts with that identity that handed out a book, less the number of
    returns with that identity that returned.  Adds, calls that fail and
    calls with other identities do not change it. *)
Theorem copies_out_accounting (ops : list op) (k : BookKey) :
  copies_out (run ops Library_init) k = net_taken k ops Library_init.
Proof.
  rewrite copies_out_run by apply consistent_init.
  unfold copies_out, record_of. cbn. rewrite lookup_empty. lia.
Qed.

(** * An exhausted iterator *)

(** The iterator of [lib] after [n] calls of [__next__], whatever they
    produced. *)
Fixpoint after_calls (lib : Library) (n : nat) : LibraryBookIter :=
  match n with
  | O => __iter__ lib
  | S n' => snd (__next__ lib (after_calls lib n'))
  end.

Section Exhaustion.
Variable lib : Library.
Implicit Types (l c : loc) (rest : list loc) (k : Z) (it : LibraryBookIter).

Lemma next_unallocated c rest k :
  heap lib !! c = None →
  __next__ lib (mkLibraryBookIter rest (Some c) k)
  = (Raise Unallocated, mkLibraryBookIter rest (Some c) k).
Proof.
  intros Hc. unfold __next__, bind, gets, available_of. cbn. by rewrite Hc.
Qed.

(** The loop leaves the counter alone, and when it runs off the end it
    stands on a record without copies. *)
Lemma skip_unavailable_outcome rest : ∀ cur k o it',
  skip_unavailable lib cur rest k = (o, it') →
  qty_counter it' = k
  ∧ (o = Raise StopIteration →
       ∃ c lb, it' = mkLibraryBookIter [] (Some c) k
         ∧ heap lib !! c = Some lb ∧ available_qty lb = 0%Z).
Proof.
  induction rest as [|l rest IH]; intros cur k o it'; cbn [skip_unavailable].
  - destruct (heap lib !! cur) as [lb|] eqn:Hcur; [|by intros [= <- <-]].
    destruct (Z.eqb_spec (available_qty lb) 0) as [Hz|Hz]; intros [= <- <-].
    + split; [done|]. intros _. by exists cur, lb.
    + done.
  - destruct (heap lib !! cur) as [lb|] eqn:Hcur; [|by intros [= <- <-]].
    destruct (Z.eqb_spec (available_qty lb) 0) as [Hz|Hz].
    + apply IH.
    + by intros [= <- <-].
Qed.

Lemma next_current_counter c rest k :
  (0 ≤ k)%Z →
  (0 ≤ qty_counter (snd (__next__ lib (mkLibraryBookIter rest (Some c) k))))%Z.
Proof.
  intros Hk. destruct (heap lib !! c) as [lb|] eqn:Hc.
  - destruct (decide (k < available_qty lb)%Z) as [Hlt|Hge].
    + rewrite (next_same _ _ _ _ lb) by done. cbn. lia.
    + destruct rest as [|l rest].
      * by rewrite (next_end _ _ _ lb) by (done || lia).
      * rewrite (next_other _ _ _ _ _ lb) by (done || lia).
        destruct (skip_unavailable lib l rest k) as [[c'|e] it''] eqn:Hs; cbn; [lia|].
        apply skip_unavailable_outcome in Hs as [-> _]. done.
  - by rewrite next_unallocated.
Qed.

Lemma next_counter it :
  (0 ≤ qty_counter it)%Z → (0 ≤ qty_counter (snd (__next__ lib it)))%Z.
Proof.
  destruct it as [rest [c|] k]; cbn [qty_counter]; intros Hk.
  - by apply next_current_counter.
  - destruct rest as [|c rest]; [by rewrite next_start_empty|].
    rewrite next_start_cons. by apply next_current_counter.
Qed.

Lemma after_calls_counter n : (0 ≤ qty_counter (after_calls lib n))%Z.
Proof. induction n as [|n IH]; [done|]. cbn [after_calls]. by apply next_counter. Qed.

Lemma next_current_stop c rest k it' :
  (0 ≤ k)%Z →
  __next__ lib (mkLibraryBookIter rest (Some c) k) = (Raise StopIteration, it') →
  __next__ lib it' = (Raise StopIteration, it').
Proof.
  intros Hk. destruct (heap lib !! c) as [lb|] eqn:Hc.
  - destruct (decide (k < available_qty lb)%Z) as [Hlt|Hge].
    + by rewrite (next_same _ _ _ _ lb) by done.
    + destruct rest as [|l rest].
      * rewrite (next_end _ _ _ lb) by (done || lia). intros [= <-].
        apply (next_end _ _ _ lb); [done|lia].
      * rewrite (next_other _ _ _ _ _ lb) by (done || lia).
        destruct (skip_unavailable lib l rest k) as [[c'|e] it''] eqn:Hs; [done|].
        intros [= -> ->].
        apply skip_unavailable_outcome in Hs as [_ Hs].
        destruct (Hs eq_refl) as (c' & lb' & -> & Hc' & Hz).
        apply (next_end _ _ _ lb'); [done|lia].
  - by rewrite next_unallocated.
Qed.

(** Once [__next__] has raised [StopIteration], the next call does the
    same and leaves the iterator as it is. *)
Lemma next_stop it it' :
  (0 ≤ qty_counter it)%Z →
  __next__ lib it = (Raise StopIteration, it') →
  __next__ lib it' = (Raise StopIteration, it').
Proof.
  destruct it as [rest [c|] k]; cbn [qty_counter]; intros Hk.
  - by apply next_current_stop.
  - destruct rest as [|c rest].
    + rewrite next_start_empty. by intros [= <-].
    + rewrite next_start_cons. by apply next_current_stop.
Qed.

Lemma after_stop n it' j :
  __next__ lib (after_calls lib n) = (Raise StopIteration, it') →
  after_calls lib (S (n + j)) = it'
  ∧ __next__ lib (after_calls lib (S (n + j))) = (Raise StopIteration, it').
Proof.
  intros Hn. pose proof (next_stop _ _ (after_calls_counter n) Hn) as Hfix.
  induction j as [|j [IH1 IH2]].
  - rewrite Nat.add_0_r. cbn [after_calls]. by rewrite Hn.
  - rewrite Nat.add_succ_r. cbn [after_calls] in *. by rewrite IH2.
Qed.
End Exhaustion.

(** X11: an exhausted iterator stays exhausted.  On every library, once a
    call of [__next__] has raised [StopIteration], every later call on that
    iterator raises [StopIteration] too and the iterator no longer changes. *)
Theorem exhausted_stays_exhausted (lib : Library) (n m : nat) :
  fst (__next__ lib (after_calls lib n)) = Raise StopIteration →
  n < m →
  fst (__next__ lib (after_calls lib m)) = Raise StopIteration
  ∧ after_calls lib (S m) = after_calls lib m.
Proof.
  intros Hn Hlt.
  destruct (__next__ lib (after_calls lib n)) as [o it'] eqn:Hnext. cbn in Hn. subst o.
  replace m with (S (n + (m - S n))) by lia.
  destruct (after_stop lib n it' (m - S n) Hnext) as [Hst Hnx].
  split; [by rewrite Hnx|].
  change (after_calls lib (S (S (n + (m - S n)))))
    with (snd (__next__ lib (after_calls lib (S (n + (m - S n)))))).
  by rewrite Hnx.
Qed.

Lemma exhausted_stays_exhausted_witness :
  fst (__next__ (run [Add LOTR; Add Sherlock; Checkout "Sherlock" "Conan-Doyle"] Library_init)
         (after_calls (run [Add LOTR; Add Sherlock; Checkout "Sherlock" "Conan-Doyle"]
                           Library_init) 5))
  = Raise StopIteration
  ∧ after_calls (run [Add LOTR; Add Sherlock; Checkout "Sherlock" "Conan-Doyle"]
                     Library_init) 6
    = after_calls (run [Add LOTR; Add Sherlock; Checkout "Sherlock" "Conan-Doyle"]
                       Library_init) 5.
Proof.
  apply (exhausted_stays_exhausted
           (run [Add LOTR; Add Sherlock; Checkout "Sherlock" "Conan-Doyle"] Library_init)
           1 5).
  - reflexivity.
  - lia.
Defined.

(** * Comparing books and keys *)

(** [Book.__eq__]: [self.__dict__ == other.__dict__], the four attributes
    compared one by one. *)
Definition Book_eq (self other : Book) : bool :=
  String.eqb (title self) (title other)
  && String.eqb (author self) (author other)
  && String.eqb (genere self) (genere other)
  && (n_pages self =? n_pages other)%Z.

(** [Book.__ne__]: [not self == other] *)
Definition Book_ne (self other : Book) : bool := negb (Book_eq self other).




(** X12: [==] on books holds exactly when all four attributes agree, that is
    when the books are the same value, and [!=] holds exactly when it does
    not; so two books of one identity that differ in genre or size are
    different books. *)
Theorem Book_eq_decides_equality (b1 b2 : Book) :
  (Book_eq b1 b2 = true ↔ b1 = b2)
  ∧ (Book_ne b1 b2 = true ↔ b1 ≠ b2)
  ∧ (Book_eq b1 b2 = true → from_book b1 = from_book b2).
Proof.
  assert (Heq : Book_eq b1 b2 = true ↔ b1 = b2).
  { unfold Book_eq. rewrite !andb_true_iff, !String.eqb_eq, Z.eqb_eq.
    destruct b1, b2; cbn. split; [by intros [[[-> ->] ->] ->]|by intros [= -> -> -> ->]]. }
  split_and!; [done| |by intros ->%Heq].
  unfold Book_ne. rewrite negb_true_iff. split.
  - intros Hf Hb%Heq. congruence.
  - intros Hne. apply not_true_is_false. by intros Hb%Heq.
Qed.

